(** * Payout engine of the hurricane parametric-insurance tool

    A shallow embedding of [src/payout_engine.py]:
    [calculate_distance_miles], [interpolate_segment], [determine_category],
    [evaluate_payout_complex] and [evaluate_portfolio_complex].

    Modelling conventions.
    - Python floats are modelled by exact rationals [Q]; [float('inf')] is the
      extra constructor [Inf] of [miles]; a NaN (pandas' missing value) is a
      constructor of its own, never a rational. The statements proved over
      this model rest on comparisons and on the structure of the loops. What
      depends on the exact value an arithmetic expression rounds to is stated
      over binary64 floats instead, in [Float64].
    - A record produced by [DataFrame.to_dict('records')] is a [point]; a key
      of that dictionary is a [field]: absent, NaN, or a number.
    - A [DataFrame] payout table is the list of its rows, in storage order.
    - A Python [dict] used as a mapping keeps insertion order: an association
      list.
    - [raise] is the left injection of a sum.
    - [geopy.distance.geodesic(...).miles] belongs to an external library; it
      is a variable of the section, [None] standing for its [ValueError]. *)

From Stdlib Require Import QArith Qabs Qminmax ZArith List String Bool Lia Lqa Permutation.
From Stdlib Require Import Floats.
Import ListNotations.

Open Scope Q_scope.

(** ** Python values *)

(** A key of a record dictionary. *)
Inductive field : Type :=
  | Missing            (* the key is not in the dictionary *)
  | NaN                (* the key is there, the value is NaN / None *)
  | Val (q : Q).

(** [d.get(key, default)]: the result is a number or NaN ([None]). *)
Definition get_default (f : field) (default : Q) : option Q :=
  match f with
  | Missing => Some default
  | NaN => None
  | Val q => Some q
  end.

(** [d.get(key, default) if pd.notna(d.get(key)) else default]. *)
Definition get_notna (f : field) (default : Q) : Q :=
  match f with
  | Val q => q
  | _ => default
  end.

Definition Qltb (x y : Q) : bool := negb (Qle_bool y x).

(** Python's [max(a, b)] and [min(a, b)] keep the first argument on a tie. *)
Definition py_max (a b : Q) : Q := if Qltb a b then b else a.
Definition py_min (a b : Q) : Q := if Qltb b a then b else a.

(** A distance: a float that may be [float('inf')]. *)
Inductive miles : Type :=
  | Fin (d : Q)
  | Inf.

(** [a < b] on distances. *)
Definition miles_ltb (a b : miles) : bool :=
  match a, b with
  | Fin x, Fin y => Qltb x y
  | Fin _, Inf => true
  | Inf, _ => false
  end.

(** [dist <= radius], the radius being a finite number. *)
Definition within (dist : miles) (radius : Q) : bool :=
  match dist with
  | Fin d => Qle_bool d radius
  | Inf => false
  end.

Inductive exn : Type :=
  | ValueError
  | IndexError.

(** ** Data model *)

(** A track record, or a point built by [interpolate_segment]; [dist] is the
    key the evaluator adds. *)
Record point : Type := mkPoint {
  LAT : Q;
  LON : Q;
  USA_WIND : field;
  USA_PRES : field;
  dist : option miles
}.

Definition set_dist (p : point) (d : miles) : point :=
  mkPoint (LAT p) (LON p) (USA_WIND p) (USA_PRES p) (Some d).

(** The location dictionary handed to [interpolate_segment]. *)
Record location : Type := mkLocation {
  loc_lat : Q;
  loc_lon : Q;
  loc_radius_miles : Q
}.

(** A row of a payout table; a threshold may be NaN. *)
Record tier : Type := mkTier {
  Category : Z;
  Min_Wind : option Q;
  Max_Pressure : option Q;
  Payout_Pct : Q
}.

Definition payout_table_t : Type := list tier.

(** [policy_params]: the three geometry keys are read with [.get]. *)
Record policy : Type := mkPolicy {
  lat : option Q;
  lon : option Q;
  radius_miles : option Q;
  payout_table : payout_table_t
}.

Record result : Type := mkResult {
  triggered : bool;
  payout_ratio : Q;
  max_category_inside_radius : Z;
  triggered_category : Z;
  min_distance_miles : miles;
  closest_point_data : option point
}.

(** An entry of the portfolio's location list. *)
Record portfolio_location : Type := mkPLoc {
  Name : string;
  pl_lat : option Q;
  pl_lon : option Q;
  pl_radius_miles : option Q;
  sublimit : Q;
  Profile_Name : option string
}.

Record breakdown : Type := mkBreakdown {
  b_Location : string;
  b_Triggered : bool;
  b_Payout : Q;
  b_Category : Z;
  b_Min_Dist : miles
}.

Record portfolio_result : Type := mkPortfolio {
  p_triggered : bool;
  total_payout : Q;
  uncapped_payout : Q;
  location_breakdown : list breakdown
}.

(** ** Category classifier *)

(** [wind >= row['Min_Wind']]: false against a NaN threshold. *)
Definition wind_reaches (wind : Q) (row : tier) : bool :=
  match Min_Wind row with
  | Some w => Qle_bool w wind
  | None => false
  end.

(** [pd.notna(row['Max_Pressure']) and pressure <= row['Max_Pressure']]. *)
Definition pressure_reaches (pressure : Q) (row : tier) : bool :=
  match Max_Pressure row with
  | Some p => Qle_bool pressure p
  | None => false
  end.

(** One of the two loops over [payout_table.iterrows()]. *)
Definition scan (reaches : tier -> bool) (table : payout_table_t) : Z :=
  fold_left (fun cat row => if reaches row then Z.max cat (Category row) else cat)
            table 0%Z.

Definition cat_wind (wind : option Q) (table : payout_table_t) : Z :=
  match wind with
  | Some w => scan (wind_reaches w) table
  | None => 0%Z
  end.

Definition cat_pres (pressure : option Q) (table : payout_table_t) : Z :=
  match pressure with
  | Some p => if Qltb 0 p then scan (pressure_reaches p) table else 0%Z
  | None => 0%Z
  end.

Definition determine_category (wind pressure : option Q) (table : payout_table_t) : Z :=
  Z.max (cat_wind wind table) (cat_pres pressure table).

(** ** Payout resolution, the tail of [evaluate_payout_complex] *)

(** [Series.max()] of a non-empty series. *)
Definition series_max (p : Q) (ps : list Q) : Q := fold_left py_max ps p.

Definition resolve_payout (table : payout_table_t) (max_cat_achieved : Z) : Q :=
  match filter (fun row => (Category row =? max_cat_achieved)%Z) table with
  | m :: _ => Payout_Pct m
  | [] =>
      match map Payout_Pct
                (filter (fun row => (Category row <=? max_cat_achieved)%Z) table) with
      | p :: ps => series_max p ps
      | [] => 0
      end
  end.

(** Consecutive pairs [(track_list[i], track_list[i+1])], [i < len - 1]. *)
Definition segments (track : list point) : list (point * point) :=
  combine track (tl track).

(** [track_list[-1]] when the list is not empty. *)
Definition last_point (track : list point) : option point :=
  match track with
  | [] => None
  | p :: rest => Some (last rest p)
  end.

(** The running values of [evaluate_payout_complex]. *)
Record acc : Type := mkAcc {
  min_dist : miles;
  max_cat_achieved : Z;
  closest : option point
}.

Definition acc0 : acc := mkAcc Inf 0%Z None.

(** [if d < min_dist: min_dist = d; closest_point_data = p]. *)
Definition track_min (d : miles) (p : point) (a : acc) : acc :=
  if miles_ltb d (min_dist a) then mkAcc d (max_cat_achieved a) (Some p) else a.

(** [if cat > max_cat_achieved: max_cat_achieved = cat]. *)
Definition raise_cat (cat : Z) (a : acc) : acc :=
  if (max_cat_achieved a <? cat)%Z
  then mkAcc (min_dist a) cat (closest a) else a.

Section Engine.

(** [geodesic((lat1, lon1), (lat2, lon2)).miles], [None] for [ValueError]. *)
Variable geodesic_miles : Q -> Q -> Q -> Q -> option Q.

Definition calculate_distance_miles (lat1 lon1 lat2 lon2 : Q) : miles :=
  match geodesic_miles lat1 lon1 lat2 lon2 with
  | Some d => Fin d
  | None => Inf
  end.

(** *** Geometry *)

(** The projection parameter before clamping. *)
Definition projection_t (p1 p2 : point) (loc : location) : Q :=
  let dx := LAT p2 - LAT p1 in
  let dy := LON p2 - LON p1 in
  ((loc_lat loc - LAT p1) * dx + (loc_lon loc - LON p1) * dy) / (dx * dx + dy * dy).

(** [max(0, min(1, t))]. *)
Definition clamp (t : Q) : Q := py_max 0 (py_min 1 t).

Definition interpolate_segment (p1 p2 : point) (loc : location) : option point :=
  let dx := LAT p2 - LAT p1 in
  let dy := LON p2 - LON p1 in
  if Qeq_bool dx 0 && Qeq_bool dy 0 then None
  else
    let t := clamp (projection_t p1 p2 loc) in
    let lat_c := LAT p1 + t * dx in
    let lon_c := LON p1 + t * dy in
    let d := calculate_distance_miles (loc_lat loc) (loc_lon loc) lat_c lon_c in
    if within d (loc_radius_miles loc) then
      let w1 := get_notna (USA_WIND p1) 0 in
      let w2 := get_notna (USA_WIND p2) 0 in
      let p_pres1 := get_notna (USA_PRES p1) 1013 in
      let p_pres2 := get_notna (USA_PRES p2) 1013 in
      let wind_c := w1 + t * (w2 - w1) in
      let pres_c := p_pres1 + t * (p_pres2 - p_pres1) in
      Some (mkPoint lat_c lon_c (Val wind_c) (Val pres_c) (Some d))
    else None.

(** *** Single-location evaluator *)

(** The category of a record:
    [determine_category(pt.get('USA_WIND', 0), pt.get('USA_PRES', 1013), table)]. *)
Definition point_category (table : payout_table_t) (pt : point) : Z :=
  determine_category (get_default (USA_WIND pt) 0) (get_default (USA_PRES pt) 1013) table.

(** One turn of the loop of the ['interpolated'] branch: what it appends to
    [points_to_check]. *)
Definition interpolated_step (loc : location) (seg : point * point) : list point :=
  let (p1, p2) := seg in
  let d_p1 := calculate_distance_miles (loc_lat loc) (loc_lon loc) (LAT p1) (LON p1) in
  match interpolate_segment p1 p2 loc with
  | Some interp => [interp; set_dist p1 d_p1]
  | None => [set_dist p1 d_p1]
  end.

(** [points_to_check] at the end of the ['interpolated'] branch. *)
Definition interpolated_points (loc : location) (track : list point) : list point :=
  flat_map (interpolated_step loc) (segments track)
  ++ match last_point track with
     | Some l =>
         [set_dist l (calculate_distance_miles (loc_lat loc) (loc_lon loc) (LAT l) (LON l))]
     | None => []
     end.

(** One turn of the loop of the ['max_outcome'] branch. *)
Definition max_outcome_step (loc : location) (table : payout_table_t)
           (a : acc) (seg : point * point) : acc :=
  let (p1, p2) := seg in
  let interp := interpolate_segment p1 p2 loc in
  let d1 := calculate_distance_miles (loc_lat loc) (loc_lon loc) (LAT p1) (LON p1) in
  let a := track_min d1 p1 a in
  match interp with
  | Some i =>
      let a := match dist i with
               | Some di => track_min di i a
               | None => a
               end in
      let cat1 := point_category table p1 in
      let cat2 := point_category table p2 in
      raise_cat (Z.max cat1 cat2) a
  | None => a
  end.

(** The ['max_outcome'] branch: the loop, then the last point, which only
    takes part in the minimum distance. *)
Definition max_outcome_scan (loc : location) (table : payout_table_t)
           (track : list point) : acc :=
  let a := fold_left (max_outcome_step loc table) (segments track) acc0 in
  match last_point track with
  | Some l =>
      track_min (calculate_distance_miles (loc_lat loc) (loc_lon loc) (LAT l) (LON l)) l a
  | None => a
  end.

(** One turn of the loop [for pt in points_to_check]. *)
Definition check_point (radius : Q) (table : payout_table_t) (a : acc) (pt : point) : acc :=
  match dist pt with
  | Some d =>
      let a := track_min d pt a in
      if within d radius then raise_cat (point_category table pt) a else a
  | None => a
  end.

(** The body of [evaluate_payout_complex] once the three parameters are
    known to be there. *)
Definition evaluate_core (track : list point) (loc : location)
           (table : payout_table_t) (trigger_method : string) : result :=
  let points_to_check :=
    if String.eqb trigger_method "interpolated" then interpolated_points loc track
    else [] in
  let a :=
    if String.eqb trigger_method "interpolated" then acc0
    else if String.eqb trigger_method "max_outcome" then max_outcome_scan loc table track
    else acc0 in
  let a := fold_left (check_point (loc_radius_miles loc) table) points_to_check a in
  let ratio := resolve_payout table (max_cat_achieved a) in
  mkResult (Qltb 0 ratio) ratio (max_cat_achieved a) (max_cat_achieved a)
           (min_dist a) (closest a).

Definition evaluate_payout_complex (storm_track : list point) (policy_params : policy)
           (trigger_method : string) : exn + result :=
  match lat policy_params, lon policy_params, radius_miles policy_params with
  | Some lat_p, Some lon_p, Some radius =>
      inr (evaluate_core storm_track (mkLocation lat_p lon_p radius)
                         (payout_table policy_params) trigger_method)
  | _, _, _ => inl ValueError
  end.

(** *** Portfolio evaluator *)

(** [payout_profiles.get(name)]. *)
Fixpoint profiles_get (profiles : list (string * payout_table_t)) (name : string)
  : option payout_table_t :=
  match profiles with
  | [] => None
  | (k, v) :: rest => if String.eqb k name then Some v else profiles_get rest name
  end.

(** The table of a location: its own profile, else ["Default"], else the
    first value of the mapping ([IndexError] when there is none). *)
Definition resolve_profile (profiles : list (string * payout_table_t))
           (loc : portfolio_location) : exn + payout_table_t :=
  let profile_name :=
    match Profile_Name loc with Some n => n | None => "Default"%string end in
  match profiles_get profiles profile_name with
  | Some table => inr table
  | None =>
      match profiles_get profiles "Default" with
      | Some table => inr table
      | None =>
          match profiles with
          | (_, table) :: _ => inr table
          | [] => inl IndexError
          end
      end
  end.

(** The running values of [evaluate_portfolio_complex]. *)
Record pacc : Type := mkPacc {
  pa_total : Q;
  pa_details : list breakdown;
  pa_triggered_any : bool
}.

(** One turn of the loop over [locations]. *)
Definition portfolio_step (storm_track : list point)
           (profiles : list (string * payout_table_t)) (trigger_method : string)
           (a : pacc) (loc : portfolio_location) : exn + pacc :=
  match resolve_profile profiles loc with
  | inl e => inl e
  | inr table =>
      let pol := mkPolicy (pl_lat loc) (pl_lon loc) (pl_radius_miles loc) table in
      match evaluate_payout_complex storm_track pol trigger_method with
      | inl e => inl e
      | inr res =>
          let loc_payout := if triggered res then payout_ratio res * sublimit loc else 0 in
          inr (mkPacc (pa_total a + loc_payout)
                      (pa_details a ++
                         [mkBreakdown (Name loc) (triggered res) loc_payout
                                      (max_category_inside_radius res)
                                      (min_distance_miles res)])
                      (pa_triggered_any a || triggered res))
      end
  end.

Fixpoint portfolio_loop (storm_track : list point)
         (profiles : list (string * payout_table_t)) (trigger_method : string)
         (locations : list portfolio_location) (a : pacc) : exn + pacc :=
  match locations with
  | [] => inr a
  | loc :: rest =>
      match portfolio_step storm_track profiles trigger_method a loc with
      | inl e => inl e
      | inr a' => portfolio_loop storm_track profiles trigger_method rest a'
      end
  end.

Definition evaluate_portfolio_complex (storm_track : list point)
           (locations : list portfolio_location) (aggregate_limit : Q)
           (payout_profiles : list (string * payout_table_t))
           (trigger_method : string) : exn + portfolio_result :=
  match portfolio_loop storm_track payout_profiles trigger_method locations
                       (mkPacc 0 [] false) with
  | inl e => inl e
  | inr a =>
      inr (mkPortfolio (pa_triggered_any a) (py_min (pa_total a) aggregate_limit)
                       (pa_total a) (pa_details a))
  end.

End Engine.

(** * Vocabulary of the statements and example data *)

(** [c] is the highest category among the rows that satisfy [P], and 0 when
    no row does. *)
Definition highest_category (P : tier -> Prop) (table : payout_table_t) (c : Z) : Prop :=
  (forall row, In row table -> P row -> (Category row <= c)%Z) /\
  ((exists row, In row table /\ P row /\ Category row = c) \/
   (c = 0%Z /\ forall row, In row table -> ~ P row)).

(** "minimum-wind threshold is <= the observed wind". *)
Definition wind_tier (wind : Q) (row : tier) : Prop :=
  exists m, Min_Wind row = Some m /\ m <= wind.

(** "maximum-pressure threshold is >= the observed pressure". *)
Definition pressure_tier (pressure : Q) (row : tier) : Prop :=
  exists m, Max_Pressure row = Some m /\ pressure <= m.

(** The standard table of the application: categories 1 to 5. *)
Definition standard_table : payout_table_t :=
  [ mkTier 1 (Some 64) (Some 980) (1 # 10);
    mkTier 2 (Some 83) (Some 965) (1 # 4);
    mkTier 3 (Some 96) (Some 945) (1 # 2);
    mkTier 4 (Some 113) (Some 920) (4 # 5);
    mkTier 5 (Some 137) (Some 900) 1 ].

(** What the resolution of an achieved category [C] on a table yields: the
    fraction of a tier of category [C] when there is one; otherwise the
    largest fraction among the tiers of category at most [C]; 0 when no tier
    has a category at most [C]. *)
Definition resolution (table : payout_table_t) (C : Z) (ratio : Q) : Prop :=
  ((exists row, In row table /\ Category row = C) ->
   exists row, In row table /\ Category row = C /\ ratio = Payout_Pct row) /\
  ((forall row, In row table -> Category row <> C) ->
   (exists row, In row table /\ (Category row <= C)%Z) ->
   (exists row, In row table /\ (Category row <= C)%Z /\ ratio = Payout_Pct row) /\
   (forall row, In row table -> (Category row <= C)%Z -> Payout_Pct row <= ratio)) /\
  ((forall row, In row table -> (C < Category row)%Z) -> ratio = 0).

(** A stand-in for the geodesic distance, for the examples only: 69 miles per
    degree along each axis. *)
Definition grid_miles (lat1 lon1 lat2 lon2 : Q) : option Q :=
  Some (69 * (Qabs (lat2 - lat1) + Qabs (lon2 - lon1))).

Definition miami (table : payout_table_t) : policy :=
  mkPolicy (Some (257617 # 10000)) (Some (- (801918 # 10000))) (Some 50) table.

Definition sparse_table : payout_table_t :=
  [ mkTier 1 (Some 64) None (1 # 10);
    mkTier 3 (Some 96) None (1 # 2);
    mkTier 5 (Some 137) None 1 ].

Definition scenario_track : list point :=
  [ mkPoint 25 (- 80) (Val 100) Missing None;
    mkPoint (51 # 2) (- (401 # 5)) (Val 115) Missing None ].

Definition coincident (p1 p2 : point) : Prop :=
  LAT p1 == LAT p2 /\ LON p1 == LON p2.

Definition named_profile (loc : portfolio_location) : string :=
  match Profile_Name loc with
  | Some n => n
  | None => "Default"%string
  end.

Definition has_geometry (loc : portfolio_location) : Prop :=
  pl_lat loc <> None /\ pl_lon loc <> None /\ pl_radius_miles loc <> None.

Definition two_profiles : list (string * payout_table_t) :=
  [ ("Standard"%string, standard_table); ("Default"%string, sparse_table) ].

Definition one_profile : list (string * payout_table_t) :=
  [ ("Standard"%string, standard_table) ].

Definition site (name : string) (amount : Q) (profile : string) : portfolio_location :=
  mkPLoc name (Some (257617 # 10000)) (Some (- (801918 # 10000))) (Some 50)
         amount (Some profile).

Definition Qsum (l : list Q) : Q := fold_right Qplus 0 l.

(** "payout ratio x sublimit" of a location and its result. *)
Definition location_payout (lr : portfolio_location * result) : Q :=
  payout_ratio (snd lr) * sublimit (fst lr).

(** Payout fractions are not negative. *)
Definition fractions_nonneg (table : payout_table_t) : Prop :=
  Forall (fun row => 0 <= Payout_Pct row) table.

(** The evaluation of one location of the portfolio. *)
Definition location_result (geodesic_miles : Q -> Q -> Q -> Q -> option Q)
           (track : list point) (profiles : list (string * payout_table_t))
           (method : string) (loc : portfolio_location) (res : result) : Prop :=
  exists table,
    resolve_profile profiles loc = inr table /\
    evaluate_payout_complex geodesic_miles track
      (mkPolicy (pl_lat loc) (pl_lon loc) (pl_radius_miles loc) table) method = inr res.

Definition two_sites : list portfolio_location :=
  [ site "North" 1200000 "Sparse"; site "South" 1200000 "Sparse" ].

Definition sparse_profiles : list (string * payout_table_t) :=
  [ ("Sparse"%string, sparse_table) ].

(** [sub l1 l2]: [l1] is [l2] with some elements left out. *)
Inductive sub : list point -> list point -> Prop :=
  | sub_nil : sub [] []
  | sub_keep (p : point) (l1 l2 : list point) : sub l1 l2 -> sub (p :: l1) (p :: l2)
  | sub_skip (p : point) (l1 l2 : list point) : sub l1 l2 -> sub l1 (p :: l2).

(** A well-formed table: fractions are not negative and do not decrease as
    the category increases. *)
Definition well_formed (table : payout_table_t) : Prop :=
  fractions_nonneg table /\
  forall a b, In a table -> In b table ->
              (Category a <= Category b)%Z -> Payout_Pct a <= Payout_Pct b.

(** A category-5 observation (150 kt, 900 mb) right at the insured location. *)
Definition landfall : point :=
  mkPoint (257617 # 10000) (- (801918 # 10000)) (Val 150) (Val 900) None.

(** [c] is 0 or the category of a tier of the table. *)
Definition category_of_table (table : payout_table_t) (c : Z) : Prop :=
  c = 0%Z \/ exists row, In row table /\ Category row = c.

(** [a <= b] and [a == b] on distances. *)
Definition miles_le (a b : miles) : Prop :=
  match a, b with
  | Fin x, Fin y => x <= y
  | _, Inf => True
  | Inf, Fin _ => False
  end.

Definition miles_eq (a b : miles) : Prop :=
  match a, b with
  | Fin x, Fin y => x == y
  | Inf, Inf => True
  | _, _ => False
  end.

(** What [if d < min_dist: min_dist = d] leaves in [min_dist]. *)
Definition miles_min (d m : miles) : miles := if miles_ltb d m then d else m.

Definition min_over (ds : list miles) (m : miles) : miles :=
  fold_left (fun m d => miles_min d m) ds m.

(** The ['dist'] values of a list of records. *)
Definition dists_of (pts : list point) : list miles :=
  flat_map (fun pt => match dist pt with Some d => [d] | None => [] end) pts.

(** The distance from the location to a track point. *)
Definition raw_distance (geodesic_miles : Q -> Q -> Q -> Q -> option Q)
           (loc : location) (p : point) : miles :=
  calculate_distance_miles geodesic_miles (loc_lat loc) (loc_lon loc) (LAT p) (LON p).

(** The distances a minimum is taken over: from the location to every track
    point, and to the closest point of every segment that reaches the radius. *)
Definition candidate_distance (geodesic_miles : Q -> Q -> Q -> Q -> option Q)
           (loc : location) (track : list point) (d : miles) : Prop :=
  (exists p, In p track /\ d = raw_distance geodesic_miles loc p) \/
  (exists p1 p2 i, In (p1, p2) (segments track) /\
                   interpolate_segment geodesic_miles p1 p2 loc = Some i /\
                   dist i = Some d).

(** The distances one turn of the ['max_outcome'] loop compares. *)
Definition segment_distances (geodesic_miles : Q -> Q -> Q -> Q -> option Q)
           (loc : location) (seg : point * point) : list miles :=
  raw_distance geodesic_miles loc (fst seg)
  :: match interpolate_segment geodesic_miles (fst seg) (snd seg) loc with
     | Some i => dists_of [i]
     | None => []
     end.

(** The method is one of the two the evaluator knows. *)
Definition known_method (method : string) : Prop :=
  method = "interpolated"%string \/ method = "max_outcome"%string.

(** The category a segment gets under ['max_outcome']: the higher of the
    categories of its two end points. *)
Definition segment_category (table : payout_table_t) (seg : point * point) : Z :=
  Z.max (point_category table (fst seg)) (point_category table (snd seg)).

(** The running minimum and the running closest record agree: nothing seen
    yet, or a record at exactly the minimum distance. *)
Definition closest_agrees (geodesic_miles : Q -> Q -> Q -> Q -> option Q)
           (loc : location) (a : acc) : Prop :=
  (closest a = None /\ min_dist a = Inf) \/
  (exists p q, closest a = Some p /\ min_dist a = Fin q /\
               raw_distance geodesic_miles loc p = Fin q).

Definition positive_categories (table : payout_table_t) : Prop :=
  Forall (fun row => (0 < Category row)%Z) table.

(** The ['dist'] of a record, when it has one, is its distance to the
    location. *)
Definition dist_is_distance (geodesic_miles : Q -> Q -> Q -> Q -> option Q)
           (loc : location) (pt : point) : Prop :=
  forall d, dist pt = Some d -> raw_distance geodesic_miles loc pt = d.

(** A location one of whose geometry values is [None]. *)
Definition lacks_geometry (loc : portfolio_location) : Prop :=
  pl_lat loc = None \/ pl_lon loc = None \/ pl_radius_miles loc = None.

(** The dictionary appended to [details] for a location and its result. *)
Definition breakdown_entry (loc : portfolio_location) (res : result) : breakdown :=
  mkBreakdown (Name loc) (triggered res)
              (if triggered res then payout_ratio res * sublimit loc else 0)
              (max_category_inside_radius res) (min_distance_miles res).

(** What one turn of the portfolio loop computes for its location. *)
Definition location_entry (geodesic_miles : Q -> Q -> Q -> Q -> option Q)
           (track : list point) (profiles : list (string * payout_table_t))
           (method : string) (loc : portfolio_location) : exn + breakdown :=
  match resolve_profile profiles loc with
  | inl e => inl e
  | inr table =>
      match evaluate_payout_complex geodesic_miles track
              (mkPolicy (pl_lat loc) (pl_lon loc) (pl_radius_miles loc) table) method with
      | inl e => inl e
      | inr res => inr (breakdown_entry loc res)
      end
  end.

(** What one turn of the portfolio loop does to the running values. *)
Definition push_entry (a : pacc) (b : breakdown) : pacc :=
  mkPacc (pa_total a + b_Payout b) (pa_details a ++ [b])
         (pa_triggered_any a || b_Triggered b).

(** Payout fractions between 0 and 1. *)
Definition fractions_in_unit (table : payout_table_t) : Prop :=
  Forall (fun row => 0 <= Payout_Pct row <= 1) table.

(** [get_color] of the map page: the legend's six colours, grey for any other
    category. *)
Definition get_color (cat : Z) : string :=
  match cat with
  | 5%Z => "#FF0000"
  | 4%Z => "#FF8000"
  | 3%Z => "#FFFF00"
  | 2%Z => "#80FF00"
  | 1%Z => "#00FF00"
  | 0%Z => "#00FFFF"
  | _ => "#CCCCCC"
  end.

(** The colours the legend of the map shows. *)
Definition legend_colors : list string :=
  [ "#FF0000"; "#FF8000"; "#FFFF00"; "#80FF00"; "#00FF00"; "#00FFFF" ]%string.

(** The colour of a track segment on the map, from the readings of its two
    end points: [get_color(max(cat1, cat2))]. *)
Definition segment_color (table : payout_table_t)
           (wind1 pres1 wind2 pres2 : option Q) : string :=
  get_color (Z.max (determine_category wind1 pres1 table)
                   (determine_category wind2 pres2 table)).

(** * [interpolate_segment] in binary64 arithmetic

    The statements about the exact values [interpolate_segment] returns need
    the arithmetic of Python's floats, which rounds: here the function is
    embedded once more over Rocq's primitive binary64 floats. A NaN is a float;
    a key of a record is [None] when it is absent or holds [None]; a float
    division by zero raises [ZeroDivisionError]. *)
Module Float64.

Local Open Scope float_scope.

Record point : Type := mkPoint {
  LAT : float;
  LON : float;
  USA_WIND : option float;
  USA_PRES : option float
}.

Record location : Type := mkLocation {
  lat : float;
  lon : float;
  radius_miles : float
}.

(** The dictionary [interpolate_segment] returns. *)
Record projection : Type := mkProjection {
  p_LAT : float;
  p_LON : float;
  p_USA_WIND : float;
  p_USA_PRES : float;
  p_dist : float
}.

Inductive outcome : Type :=
  | ZeroDivisionError
  | Return (r : option projection).

(** Python's [min(a, b)] and [max(a, b)]: the second argument only when it is
    strictly smaller (larger); a NaN never is. *)
Definition py_min (a b : float) : float := if b <? a then b else a.
Definition py_max (a b : float) : float := if a <? b then b else a.

(** [d.get(key, default) if pd.notna(d.get(key)) else default]. *)
Definition get_notna (f : option float) (default : float) : float :=
  match f with
  | Some x => if is_nan x then default else x
  | None => default
  end.

Section Geometry.

(** [geodesic((lat1, lon1), (lat2, lon2)).miles], [None] for [ValueError]. *)
Variable geodesic_miles : float -> float -> float -> float -> option float.

Definition calculate_distance_miles (lat1 lon1 lat2 lon2 : float) : float :=
  match geodesic_miles lat1 lon1 lat2 lon2 with
  | Some d => d
  | None => infinity
  end.

Definition interpolate_segment (p1 p2 : point) (location : location) : outcome :=
  let lat1 := LAT p1 in
  let lon1 := LON p1 in
  let lat2 := LAT p2 in
  let lon2 := LON p2 in
  let lat_p := lat location in
  let lon_p := lon location in
  let dx := lat2 - lat1 in
  let dy := lon2 - lon1 in
  if (dx =? 0) && (dy =? 0) then Return None
  else
    let numerator := (lat_p - lat1) * dx + (lon_p - lon1) * dy in
    let denominator := dx * dx + dy * dy in
    if denominator =? 0 then ZeroDivisionError
    else
      let t := numerator / denominator in
      let t := py_max 0 (py_min 1 t) in
      let lat_c := lat1 + t * dx in
      let lon_c := lon1 + t * dy in
      let dist := calculate_distance_miles lat_p lon_p lat_c lon_c in
      if dist <=? radius_miles location then
        let w1 := get_notna (USA_WIND p1) 0 in
        let w2 := get_notna (USA_WIND p2) 0 in
        let p_pres1 := get_notna (USA_PRES p1) 1013 in
        let p_pres2 := get_notna (USA_PRES p2) 1013 in
        let wind_c := w1 + t * (w2 - w1) in
        let pres_c := p_pres1 + t * (p_pres2 - p_pres1) in
        Return (Some (mkProjection lat_c lon_c wind_c pres_c dist))
      else Return None.

End Geometry.

(** A stand-in for the geodesic distance, for the examples only: 69 miles per
    degree of latitude and 53 per degree of longitude. *)
Definition grid_miles (lat1 lon1 lat2 lon2 : float) : option float :=
  Some (69 * abs (lat2 - lat1) + 53 * abs (lon2 - lon1)).

(** A track running east along the equator from longitude -0.1 to 0.2, with
    wind 30.4 -> 97.8 and the second pressure missing. *)
Definition west_point : point :=
  mkPoint 0 (-0x1.999999999999ap-4) (Some 0x1.e666666666666p+4) (Some 990).
Definition east_point : point :=
  mkPoint 0 0x1.999999999999ap-3 (Some 0x1.8733333333333p+6) None.

(** Locations east of the track, above its middle, and west of it. *)
Definition east_site : location := mkLocation 0 0x1p-1 50.
Definition middle_site : location := mkLocation 0x1p-2 0x1p-4 50.
Definition west_site : location := mkLocation 0 (-1) 50.
Definition far_site : location := mkLocation 3 0x1p-4 50.

End Float64.

(** * Properties *)

(** ** Comparisons *)

Lemma Qltb_lt (x y : Q) : Qltb x y = true <-> x < y.
Proof.
  unfold Qltb. rewrite negb_true_iff. split.
  - intros H. apply Qnot_le_lt. intros Hle.
    apply Qle_bool_iff in Hle. congruence.
  - intros H. destruct (Qle_bool y x) eqn:E; [|reflexivity].
    apply Qle_bool_iff in E. apply Qlt_not_le in H. contradiction.
Qed.

Lemma Qltb_ge (x y : Q) : Qltb x y = false <-> y <= x.
Proof.
  unfold Qltb. rewrite negb_false_iff. apply Qle_bool_iff.
Qed.

Lemma py_max_cases (a b : Q) :
  (py_max a b = a /\ b <= a) \/ (py_max a b = b /\ a < b).
Proof.
  unfold py_max. destruct (Qltb a b) eqn:E.
  - right. split; [reflexivity | now apply Qltb_lt].
  - left. split; [reflexivity | now apply Qltb_ge].
Qed.

Lemma py_min_cases (a b : Q) :
  (py_min a b = a /\ a <= b) \/ (py_min a b = b /\ b < a).
Proof.
  unfold py_min. destruct (Qltb b a) eqn:E.
  - right. split; [reflexivity | now apply Qltb_lt].
  - left. split; [reflexivity | now apply Qltb_ge].
Qed.

Lemma series_max_spec (ps : list Q) : forall p,
  In (series_max p ps) (p :: ps) /\
  forall x, In x (p :: ps) -> x <= series_max p ps.
Proof.
  unfold series_max. induction ps as [|q ps IH]; intros p; simpl.
  - split; [now left | intros x [<-|[]]; apply Qle_refl].
  - destruct (IH (py_max p q)) as [Hin Hmax]. split.
    + destruct Hin as [Heq|Hin]; [|now right; right].
      rewrite <- Heq.
      destruct (py_max_cases p q) as [[-> _]|[-> _]]; [now left | now right; left].
    + intros x Hx.
      assert (Hpq : p <= py_max p q /\ q <= py_max p q).
      { destruct (py_max_cases p q) as [[-> H]|[-> H]]; split;
          try apply Qle_refl; try assumption; now apply Qlt_le_weak. }
      destruct Hpq as [Hp Hq].
      assert (Htop : py_max p q <= fold_left py_max ps (py_max p q))
        by (apply Hmax; now left).
      destruct Hx as [<-|[<-|Hx]].
      * eapply Qle_trans; eassumption.
      * eapply Qle_trans; eassumption.
      * apply Hmax. now right.
Qed.

(** ** The classifier *)

Lemma wind_reaches_iff (w : Q) (row : tier) :
  wind_reaches w row = true <-> wind_tier w row.
Proof.
  unfold wind_reaches, wind_tier. destruct (Min_Wind row) as [m|]; split.
  - intros H. exists m. split; [reflexivity | now apply Qle_bool_iff].
  - intros [m' [[= <-] H]]. now apply Qle_bool_iff.
  - discriminate.
  - intros [m' [[=] _]].
Qed.

Lemma pressure_reaches_iff (p : Q) (row : tier) :
  pressure_reaches p row = true <-> pressure_tier p row.
Proof.
  unfold pressure_reaches, pressure_tier. destruct (Max_Pressure row) as [m|]; split.
  - intros H. exists m. split; [reflexivity | now apply Qle_bool_iff].
  - intros [m' [[= <-] H]]. now apply Qle_bool_iff.
  - discriminate.
  - intros [m' [[=] _]].
Qed.

(** The loop of the classifier, from any starting category. *)
Lemma scan_from (reaches : tier -> bool) (table : payout_table_t) : forall c0,
  let c := fold_left (fun cat row => if reaches row then Z.max cat (Category row) else cat)
                     table c0 in
  (c0 <= c)%Z /\
  (forall row, In row table -> reaches row = true -> (Category row <= c)%Z) /\
  (c = c0 \/ exists row, In row table /\ reaches row = true /\ Category row = c).
Proof.
  induction table as [|r table IH]; intros c0; simpl.
  - repeat split; [lia | intros row [] | now left].
  - specialize (IH (if reaches r then Z.max c0 (Category r) else c0)).
    simpl in IH. destruct IH as (Hle & Hall & Hex).
    destruct (reaches r) eqn:Er.
    + repeat split.
      * lia.
      * intros row [<-|Hin] Hr; [lia | now apply Hall].
      * destruct Hex as [Heq|(row & Hin & Hr & Hc)].
        -- destruct (Z.max_spec c0 (Category r)) as [[_ Hm]|[_ Hm]].
           ++ right. exists r. repeat split; [now left | assumption | congruence].
           ++ left. congruence.
        -- right. exists row. repeat split; [now right | assumption | assumption].
    + repeat split.
      * exact Hle.
      * intros row [<-|Hin] Hr; [congruence | now apply Hall].
      * destruct Hex as [Heq|(row & Hin & Hr & Hc)]; [now left|].
        right. exists row. repeat split; [now right | assumption | assumption].
Qed.

Lemma scan_nonneg (reaches : tier -> bool) (table : payout_table_t) :
  (0 <= scan reaches table)%Z.
Proof. exact (proj1 (scan_from reaches table 0%Z)). Qed.

Lemma scan_highest (reaches : tier -> bool) (P : tier -> Prop) (table : payout_table_t) :
  (forall row, reaches row = true <-> P row) ->
  Forall (fun row => (0 < Category row)%Z) table ->
  highest_category P table (scan reaches table).
Proof.
  intros HP Hpos. unfold scan.
  destruct (scan_from reaches table 0%Z) as (Hle & Hall & Hex).
  simpl in Hle, Hall, Hex. split.
  - intros row Hin Hrow. apply Hall; [assumption | now apply HP].
  - destruct Hex as [Heq|(row & Hin & Hr & Hc)].
    + right. split; [assumption|].
      intros row Hin Hrow. apply HP in Hrow.
      specialize (Hall row Hin Hrow).
      rewrite Forall_forall in Hpos. specialize (Hpos row Hin). lia.
    + left. exists row. repeat split; [assumption | now apply HP | assumption].
Qed.

(** C4. The classifier is the maximum of a wind path and a pressure path.
    On a table whose categories are positive integers, the wind path is the
    highest category among the tiers whose minimum-wind threshold is at most
    the observed wind (a tier without that threshold never counts), and 0 when
    the wind is absent; the pressure path is the highest category among the
    tiers whose maximum-pressure threshold is at least the observed pressure,
    and 0 when the pressure is absent or not positive. The classifier is a
    total function: no reading makes it fail. *)
Theorem determine_category_max_of_paths (wind pressure : option Q) (table : payout_table_t) :
  Forall (fun row => (0 < Category row)%Z) table ->
  exists cw cp : Z,
    determine_category wind pressure table = Z.max cw cp /\
    match wind with
    | Some w => highest_category (wind_tier w) table cw
    | None => cw = 0%Z
    end /\
    match pressure with
    | Some p => (0 < p -> highest_category (pressure_tier p) table cp) /\
                (p <= 0 -> cp = 0%Z)
    | None => cp = 0%Z
    end.
Proof.
  intros Hpos. exists (cat_wind wind table), (cat_pres pressure table).
  split; [reflexivity|]. split.
  - destruct wind as [w|]; simpl; [|reflexivity].
    apply scan_highest; [apply wind_reaches_iff | assumption].
  - destruct pressure as [p|]; simpl; [|reflexivity].
    destruct (Qltb 0 p) eqn:E.
    + apply Qltb_lt in E. split.
      * intros _. apply scan_highest; [apply pressure_reaches_iff | assumption].
      * intros Hle. apply Qlt_not_le in E. contradiction.
    + apply Qltb_ge in E. split.
      * intros Hlt. apply Qlt_not_le in Hlt. contradiction.
      * reflexivity.
Qed.

Lemma determine_category_max_of_paths_witness :
  Forall (fun row => (0 < Category row)%Z) standard_table /\
  exists cw cp : Z,
    determine_category (Some 115) (Some 1013) standard_table = Z.max cw cp /\
    highest_category (wind_tier 115) standard_table cw /\
    ((0 < 1013 -> highest_category (pressure_tier 1013) standard_table cp) /\
     (1013 <= 0 -> cp = 0%Z)).
Proof.
  split.
  - unfold standard_table. repeat constructor.
  - apply (determine_category_max_of_paths (Some 115) (Some 1013) standard_table).
    unfold standard_table. repeat constructor.
Defined.

Example determine_category_wind_only :
  determine_category (Some 150) (Some 1013) standard_table = 5%Z.
Proof. reflexivity. Qed.

Example determine_category_pressure_only :
  determine_category (Some 0) (Some 900) standard_table = 5%Z.
Proof. reflexivity. Qed.

Example determine_category_absent :
  determine_category None None standard_table = 0%Z.
Proof. reflexivity. Qed.

(** ** Payout resolution *)

Lemma filter_nil_none {A : Type} (f : A -> bool) (l : list A) :
  filter f l = [] -> forall x, In x l -> f x = false.
Proof.
  intros Hnil x Hin. destruct (f x) eqn:E; [|reflexivity].
  assert (Hx : In x (filter f l)) by (apply filter_In; now split).
  rewrite Hnil in Hx. destruct Hx.
Qed.

Lemma resolve_payout_resolution (table : payout_table_t) (C : Z) :
  resolution table C (resolve_payout table C).
Proof.
  unfold resolution, resolve_payout.
  destruct (filter (fun row => (Category row =? C)%Z) table) as [|m ms] eqn:Heq.
  - pose proof (filter_nil_none _ _ Heq) as Hno.
    assert (Hne : forall row, In row table -> Category row <> C).
    { intros row Hin Hc. specialize (Hno row Hin). simpl in Hno.
      apply Z.eqb_neq in Hno. contradiction. }
    split; [|split].
    + intros (row & Hin & Hc). exfalso. exact (Hne row Hin Hc).
    + intros _ (row & Hin & Hc).
      destruct (map Payout_Pct (filter (fun r => (Category r <=? C)%Z) table))
        as [|p ps] eqn:Hle.
      * exfalso. apply map_eq_nil in Hle.
        pose proof (filter_nil_none _ _ Hle row Hin) as Hf. simpl in Hf.
        apply Z.leb_gt in Hf. lia.
      * destruct (series_max_spec ps p) as [Hin' Hmax]. rewrite <- Hle in Hin', Hmax.
        split.
        -- apply in_map_iff in Hin'. destruct Hin' as (r & Hr & Hrin).
           apply filter_In in Hrin. destruct Hrin as [Hrin Hrc].
           apply Z.leb_le in Hrc. exists r. repeat split; auto.
        -- intros r Hrin Hrc. apply Hmax. apply in_map. apply filter_In.
           split; [assumption | now apply Z.leb_le].
    + intros Habove.
      destruct (map Payout_Pct (filter (fun r => (Category r <=? C)%Z) table))
        as [|p ps] eqn:Hle; [reflexivity|].
      exfalso.
      assert (Hin' : In p (map Payout_Pct (filter (fun r => (Category r <=? C)%Z) table)))
        by (rewrite Hle; now left).
      apply in_map_iff in Hin'. destruct Hin' as (r & _ & Hrin).
      apply filter_In in Hrin. destruct Hrin as [Hrin Hrc].
      apply Z.leb_le in Hrc. specialize (Habove r Hrin). lia.
  - assert (Hm : In m (filter (fun row => (Category row =? C)%Z) table))
      by (rewrite Heq; now left).
    apply filter_In in Hm. destruct Hm as [Hmin Hmc]. apply Z.eqb_eq in Hmc.
    split; [|split].
    + intros _. exists m. repeat split; assumption.
    + intros Hne. exfalso. exact (Hne m Hmin Hmc).
    + intros Habove. specialize (Habove m Hmin). lia.
Qed.

(** A table without a tier of category at most [C] pays nothing at [C]. *)
Lemma resolve_payout_below (table : payout_table_t) (C : Z) :
  Forall (fun row => (C < Category row)%Z) table -> resolve_payout table C = 0.
Proof.
  intros H. apply (resolve_payout_resolution table C).
  now apply Forall_forall.
Qed.

(** The evaluator returns as soon as the three geometry parameters are there. *)
Lemma evaluate_payout_complex_returns
      (geodesic_miles : Q -> Q -> Q -> Q -> option Q)
      (track : list point) (pol : policy) (method : string) (lat_p lon_p radius : Q) :
  lat pol = Some lat_p -> lon pol = Some lon_p -> radius_miles pol = Some radius ->
  evaluate_payout_complex geodesic_miles track pol method =
  inr (evaluate_core geodesic_miles track (mkLocation lat_p lon_p radius)
                     (payout_table pol) method).
Proof.
  intros Hlat Hlon Hrad. unfold evaluate_payout_complex.
  now rewrite Hlat, Hlon, Hrad.
Qed.

Lemma evaluate_payout_complex_inv
      (geodesic_miles : Q -> Q -> Q -> Q -> option Q)
      (track : list point) (pol : policy) (method : string) (res : result) :
  evaluate_payout_complex geodesic_miles track pol method = inr res ->
  exists lat_p lon_p radius,
    lat pol = Some lat_p /\ lon pol = Some lon_p /\ radius_miles pol = Some radius /\
    res = evaluate_core geodesic_miles track (mkLocation lat_p lon_p radius)
                        (payout_table pol) method.
Proof.
  unfold evaluate_payout_complex.
  destruct (lat pol) as [a|], (lon pol) as [b|], (radius_miles pol) as [c|];
    try discriminate.
  intros [= <-]. exists a, b, c. repeat split.
Qed.

(** C2. Whatever the evaluator returns, its payout ratio is the resolution of
    its achieved category on the policy's table, and it is triggered exactly
    when that ratio is positive. For every category [C] the resolution is the
    fraction of a tier of category [C] when one exists, otherwise the largest
    fraction among the tiers of category at most [C], and 0 when there is no
    such tier. *)
Theorem payout_resolution_exact_then_highest
        (geodesic_miles : Q -> Q -> Q -> Q -> option Q)
        (track : list point) (pol : policy) (method : string) (res : result) :
  evaluate_payout_complex geodesic_miles track pol method = inr res ->
  payout_ratio res =
    resolve_payout (payout_table pol) (max_category_inside_radius res) /\
  (triggered res = true <-> 0 < payout_ratio res) /\
  forall C : Z, resolution (payout_table pol) C (resolve_payout (payout_table pol) C).
Proof.
  intros Hres. apply evaluate_payout_complex_inv in Hres.
  destruct Hres as (lat_p & lon_p & radius & _ & _ & _ & ->).
  split; [reflexivity|]. split.
  - simpl. apply Qltb_lt.
  - intros C. apply resolve_payout_resolution.
Qed.

Lemma payout_resolution_exact_then_highest_witness :
  let res := evaluate_core grid_miles scenario_track
                           (mkLocation (257617 # 10000) (- (801918 # 10000)) 50)
                           sparse_table "max_outcome" in
  payout_ratio res = resolve_payout sparse_table (max_category_inside_radius res) /\
  (triggered res = true <-> 0 < payout_ratio res) /\
  forall C : Z, resolution sparse_table C (resolve_payout sparse_table C).
Proof.
  exact (payout_resolution_exact_then_highest grid_miles scenario_track
           (miami sparse_table) "max_outcome" _ eq_refl).
Defined.

Example sparse_table_category_4 : resolve_payout sparse_table 4 = 1 # 2.
Proof. reflexivity. Qed.

Example sparse_table_category_0 : resolve_payout sparse_table 0 = 0.
Proof. reflexivity. Qed.

Example scenario_max_outcome :
  let res := evaluate_core grid_miles scenario_track
                           (mkLocation (257617 # 10000) (- (801918 # 10000)) 50)
                           sparse_table "max_outcome" in
  triggered res = true /\ max_category_inside_radius res = 3%Z /\
  payout_ratio res = 1 # 2.
Proof. vm_compute. repeat split. Qed.

(** ** Empty tracks, unknown methods, missing parameters *)

Lemma evaluate_core_empty
      (geodesic_miles : Q -> Q -> Q -> Q -> option Q)
      (loc : location) (table : payout_table_t) (method : string) :
  evaluate_core geodesic_miles [] loc table method =
  let ratio := resolve_payout table 0 in
  mkResult (Qltb 0 ratio) ratio 0%Z 0%Z Inf None.
Proof.
  unfold evaluate_core.
  destruct (String.eqb method "interpolated"); [reflexivity|].
  destruct (String.eqb method "max_outcome"); reflexivity.
Qed.

Lemma evaluate_core_unknown
      (geodesic_miles : Q -> Q -> Q -> Q -> option Q)
      (track : list point) (loc : location) (table : payout_table_t) (method : string) :
  method <> "interpolated"%string -> method <> "max_outcome"%string ->
  evaluate_core geodesic_miles track loc table method =
  let ratio := resolve_payout table 0 in
  mkResult (Qltb 0 ratio) ratio 0%Z 0%Z Inf None.
Proof.
  intros Hi Hm. unfold evaluate_core.
  apply String.eqb_neq in Hi. apply String.eqb_neq in Hm.
  rewrite Hi, Hm. reflexivity.
Qed.

(** C7. On an empty track the evaluator raises nothing: for a location that
    has its latitude, longitude and radius, a table whose categories are
    positive integers and any method, it returns a result that is not
    triggered, with achieved category 0 and an infinite minimum distance. *)
Theorem empty_track_not_triggered
        (geodesic_miles : Q -> Q -> Q -> Q -> option Q)
        (pol : policy) (method : string) (lat_p lon_p radius : Q) :
  lat pol = Some lat_p -> lon pol = Some lon_p -> radius_miles pol = Some radius ->
  Forall (fun row => (0 < Category row)%Z) (payout_table pol) ->
  exists res,
    evaluate_payout_complex geodesic_miles [] pol method = inr res /\
    triggered res = false /\
    max_category_inside_radius res = 0%Z /\
    min_distance_miles res = Inf.
Proof.
  intros Hlat Hlon Hrad Hpos.
  rewrite (evaluate_payout_complex_returns _ _ _ _ _ _ _ Hlat Hlon Hrad).
  rewrite evaluate_core_empty. rewrite (resolve_payout_below _ _ Hpos).
  eexists. split; [reflexivity|]. repeat split.
Qed.

Lemma empty_track_not_triggered_witness :
  exists res,
    evaluate_payout_complex grid_miles [] (miami standard_table) "interpolated" = inr res /\
    triggered res = false /\
    max_category_inside_radius res = 0%Z /\
    min_distance_miles res = Inf.
Proof.
  apply (empty_track_not_triggered grid_miles (miami standard_table) "interpolated"
           (257617 # 10000) (- (801918 # 10000)) 50);
    try reflexivity.
  unfold miami, standard_table. simpl. repeat constructor.
Defined.

(** C9. When the latitude, the longitude or the radius of the location is
    absent, the evaluator raises [ValueError], whatever the track, the method
    and the distance function: nothing geometric is consulted. *)
Theorem missing_geometry_raises
        (geodesic_miles : Q -> Q -> Q -> Q -> option Q)
        (track : list point) (pol : policy) (method : string) :
  lat pol = None \/ lon pol = None \/ radius_miles pol = None ->
  evaluate_payout_complex geodesic_miles track pol method = inl ValueError.
Proof.
  intros H. unfold evaluate_payout_complex.
  destruct (lat pol), (lon pol), (radius_miles pol);
    try reflexivity.
  destruct H as [H|[H|H]]; discriminate.
Qed.

Lemma missing_geometry_raises_witness :
  evaluate_payout_complex grid_miles scenario_track
    (mkPolicy (Some 25) (Some (- 80)) None standard_table) "max_outcome"
  = inl ValueError.
Proof.
  apply missing_geometry_raises. right. right. reflexivity.
Defined.

(** C10. A method that is neither ['interpolated'] nor ['max_outcome'] is not
    rejected: on a non-empty track and a location with its three parameters,
    the evaluator returns what it returns on the empty track (under any
    method): achieved category 0, infinite minimum distance, and the payout
    ratio of the resolution of category 0. *)
Theorem unknown_method_as_empty_track
        (geodesic_miles : Q -> Q -> Q -> Q -> option Q)
        (track : list point) (pol : policy) (method : string) (lat_p lon_p radius : Q) :
  track <> [] ->
  method <> "interpolated"%string -> method <> "max_outcome"%string ->
  lat pol = Some lat_p -> lon pol = Some lon_p -> radius_miles pol = Some radius ->
  exists res,
    evaluate_payout_complex geodesic_miles track pol method = inr res /\
    (forall m, evaluate_payout_complex geodesic_miles [] pol m = inr res) /\
    max_category_inside_radius res = 0%Z /\
    min_distance_miles res = Inf /\
    payout_ratio res = resolve_payout (payout_table pol) 0.
Proof.
  intros _ Hi Hm Hlat Hlon Hrad.
  rewrite (evaluate_payout_complex_returns _ _ _ _ _ _ _ Hlat Hlon Hrad).
  rewrite (evaluate_core_unknown _ _ _ _ _ Hi Hm).
  eexists. split; [reflexivity|]. split; [|repeat split].
  intros m.
  rewrite (evaluate_payout_complex_returns _ _ _ _ _ _ _ Hlat Hlon Hrad).
  now rewrite evaluate_core_empty.
Qed.

Lemma unknown_method_as_empty_track_witness :
  exists res,
    evaluate_payout_complex grid_miles scenario_track (miami sparse_table) "nearest"
      = inr res /\
    (forall m, evaluate_payout_complex grid_miles [] (miami sparse_table) m = inr res) /\
    max_category_inside_radius res = 0%Z /\
    min_distance_miles res = Inf /\
    payout_ratio res = resolve_payout (payout_table (miami sparse_table)) 0.
Proof.
  apply (unknown_method_as_empty_track grid_miles scenario_track (miami sparse_table)
           "nearest" (257617 # 10000) (- (801918 # 10000)) 50);
    try reflexivity; discriminate.
Defined.

(** ** Segment projection *)

Lemma coincident_test (p1 p2 : point) :
  Qeq_bool (LAT p2 - LAT p1) 0 && Qeq_bool (LON p2 - LON p1) 0 = true
  <-> coincident p1 p2.
Proof.
  unfold coincident. rewrite andb_true_iff, !Qeq_bool_iff. split; intros [H1 H2]; lra.
Qed.

(** Half way between 100 kt and a missing wind, and between a missing
    pressure and 953 mb (the rationals are not reduced). *)
Example interpolate_segment_inside :
  interpolate_segment grid_miles
    (mkPoint 25 (- 80) (Val 100) NaN None) (mkPoint 26 (- 80) Missing (Val 953) None)
    (mkLocation (51 # 2) (- 80) 50)
  = Some (mkPoint (51 # 2) (- 160 # 2) (Val (100 # 2)) (Val (1966 # 2)) (Some (Fin (0 # 8)))).
Proof. vm_compute. reflexivity. Qed.

Example interpolate_segment_clamped_at_p2 :
  interpolate_segment grid_miles
    (mkPoint 25 (- 80) (Val 100) NaN None) (mkPoint 26 (- 80) (Val 120) (Val 953) None)
    (mkLocation (53 # 2) (- 80) 50)
  = Some (mkPoint 26 (- 80) (Val 120) (Val 953) (Some (Fin (69 # 2)))).
Proof. vm_compute. reflexivity. Qed.

Example interpolate_segment_outside :
  interpolate_segment grid_miles
    (mkPoint 25 (- 80) (Val 100) NaN None) (mkPoint 26 (- 80) (Val 120) (Val 953) None)
    (mkLocation 28 (- 80) 50)
  = None.
Proof. vm_compute. reflexivity. Qed.

(** ** Profile resolution *)

Lemma profiles_get_in (profiles : list (string * payout_table_t)) (name : string)
      (table : payout_table_t) :
  profiles_get profiles name = Some table -> In table (map snd profiles).
Proof.
  induction profiles as [|[k v] rest IH]; simpl; [discriminate|].
  destruct (String.eqb k name).
  - intros [= <-]. now left.
  - intros H. right. now apply IH.
Qed.

Lemma resolve_profile_in (profiles : list (string * payout_table_t))
      (loc : portfolio_location) (table : payout_table_t) :
  resolve_profile profiles loc = inr table -> In table (map snd profiles).
Proof.
  unfold resolve_profile.
  destruct (profiles_get profiles _) as [t|] eqn:E1.
  - intros [= <-]. eapply profiles_get_in; eassumption.
  - destruct (profiles_get profiles "Default") as [t|] eqn:E2.
    + intros [= <-]. eapply profiles_get_in; eassumption.
    + destruct profiles as [|[k v] rest]; [discriminate|].
      intros [= <-]. now left.
Qed.

Lemma resolve_profile_total (profiles : list (string * payout_table_t))
      (loc : portfolio_location) :
  profiles <> [] -> exists table, resolve_profile profiles loc = inr table.
Proof.
  intros Hne. unfold resolve_profile.
  destruct (profiles_get profiles _) as [t|]; [now exists t|].
  destruct (profiles_get profiles "Default") as [t|]; [now exists t|].
  destruct profiles as [|[k v] rest]; [contradiction | now exists v].
Qed.

(** With at least one profile and every location's geometry in place, the
    loop over the locations runs to its end. *)
Lemma portfolio_loop_returns
      (geodesic_miles : Q -> Q -> Q -> Q -> option Q)
      (track : list point) (profiles : list (string * payout_table_t))
      (method : string) (locations : list portfolio_location) :
  profiles <> [] ->
  Forall has_geometry locations ->
  forall a, exists a',
    portfolio_loop geodesic_miles track profiles method locations a = inr a'.
Proof.
  intros Hne Hgeo. induction Hgeo as [|loc rest Hloc _ IH]; intros a; simpl.
  - now exists a.
  - unfold portfolio_step.
    destruct (resolve_profile_total profiles loc Hne) as [table ->].
    destruct Hloc as (Hlat & Hlon & Hrad).
    unfold evaluate_payout_complex. simpl.
    destruct (pl_lat loc); [|contradiction].
    destruct (pl_lon loc); [|contradiction].
    destruct (pl_radius_miles loc); [|contradiction].
    apply IH.
Qed.

(** C8. With a non-empty profile mapping, the table of a location is always
    found: the profile the location names when the mapping has it; otherwise
    the profile named ["Default"] when the mapping has one; otherwise the first
    profile of the mapping. Hence a portfolio whose locations all have their
    geometry is evaluated to a result whatever profile names they carry. *)
Theorem resolve_profile_fallback
        (geodesic_miles : Q -> Q -> Q -> Q -> option Q)
        (profiles : list (string * payout_table_t)) :
  profiles <> [] ->
  (forall loc : portfolio_location,
     exists table,
       resolve_profile profiles loc = inr table /\
       (forall t, profiles_get profiles (named_profile loc) = Some t -> table = t) /\
       (profiles_get profiles (named_profile loc) = None ->
        (forall t, profiles_get profiles "Default" = Some t -> table = t) /\
        (profiles_get profiles "Default" = None ->
         exists k rest, profiles = (k, table) :: rest))) /\
  (forall track locations aggregate_limit method,
     Forall has_geometry locations ->
     exists res,
       evaluate_portfolio_complex geodesic_miles track locations aggregate_limit
                                  profiles method = inr res).
Proof.
  intros Hne. split.
  - intros loc. unfold resolve_profile. fold (named_profile loc).
    destruct (profiles_get profiles (named_profile loc)) as [t|] eqn:E1.
    + exists t. split; [reflexivity|]. split; [now intros t' [= <-] | discriminate].
    + destruct (profiles_get profiles "Default") as [t|] eqn:E2.
      * exists t. split; [reflexivity|]. split; [discriminate|]. intros _.
        split; [now intros t' [= <-] | discriminate].
      * destruct profiles as [|[k v] rest]; [contradiction|].
        exists v. split; [reflexivity|]. split; [discriminate|]. intros _.
        split; [discriminate|]. intros _. now exists k, rest.
  - intros track locations aggregate_limit method Hgeo.
    unfold evaluate_portfolio_complex.
    destruct (portfolio_loop_returns geodesic_miles track profiles method locations
                                     Hne Hgeo (mkPacc 0 [] false)) as [a' ->].
    eexists. reflexivity.
Qed.

Lemma resolve_profile_fallback_witness :
  resolve_profile two_profiles (site "Pier" 1000 "Retired") = inr sparse_table /\
  resolve_profile one_profile (site "Pier" 1000 "Retired") = inr standard_table /\
  exists res,
    evaluate_portfolio_complex grid_miles scenario_track [site "Pier" 1000 "Retired"]
                               500 one_profile "max_outcome" = inr res.
Proof.
  split; [reflexivity|]. split; [reflexivity|].
  apply (resolve_profile_fallback grid_miles one_profile); [discriminate|].
  repeat constructor; discriminate.
Defined.

(** Without any profile the fallback has nothing to take. *)
Example resolve_profile_no_profile :
  resolve_profile [] (site "Pier" 1000 "Retired") = inl IndexError.
Proof. reflexivity. Qed.

(** ** Portfolio aggregation *)

Lemma resolve_payout_nonneg (table : payout_table_t) (C : Z) :
  fractions_nonneg table -> 0 <= resolve_payout table C.
Proof.
  unfold fractions_nonneg. rewrite Forall_forall. intros Hnn. unfold resolve_payout.
  destruct (filter (fun row => (Category row =? C)%Z) table) as [|m ms] eqn:Heq.
  - destruct (map Payout_Pct (filter (fun r => (Category r <=? C)%Z) table))
      as [|p ps] eqn:Hle; [apply Qle_refl|].
    destruct (series_max_spec ps p) as [Hin _]. rewrite <- Hle in Hin.
    apply in_map_iff in Hin. destruct Hin as (r & <- & Hr).
    apply filter_In in Hr. apply Hnn. tauto.
  - assert (Hm : In m (filter (fun row => (Category row =? C)%Z) table))
      by (rewrite Heq; now left).
    apply filter_In in Hm. apply Hnn. tauto.
Qed.

Lemma untriggered_pays_nothing
      (geodesic_miles : Q -> Q -> Q -> Q -> option Q)
      (track : list point) (pol : policy) (method : string) (res : result) :
  fractions_nonneg (payout_table pol) ->
  evaluate_payout_complex geodesic_miles track pol method = inr res ->
  triggered res = false -> payout_ratio res == 0.
Proof.
  intros Hnn Hres Htr. apply evaluate_payout_complex_inv in Hres.
  destruct Hres as (lat_p & lon_p & radius & _ & _ & _ & ->).
  simpl in *. apply Qltb_ge in Htr.
  pose proof (resolve_payout_nonneg (payout_table pol)
    (max_cat_achieved
       (fold_left (check_point (loc_radius_miles (mkLocation lat_p lon_p radius))
                               (payout_table pol))
          (if String.eqb method "interpolated"
           then interpolated_points geodesic_miles (mkLocation lat_p lon_p radius) track
           else [])
          (if String.eqb method "interpolated" then acc0
           else if String.eqb method "max_outcome"
                then max_outcome_scan geodesic_miles (mkLocation lat_p lon_p radius)
                                      (payout_table pol) track
                else acc0))) Hnn) as H0.
  apply Qle_antisym; assumption.
Qed.

Lemma portfolio_loop_sum
      (geodesic_miles : Q -> Q -> Q -> Q -> option Q)
      (track : list point) (profiles : list (string * payout_table_t))
      (method : string) :
  Forall fractions_nonneg (map snd profiles) ->
  forall locations a a',
    portfolio_loop geodesic_miles track profiles method locations a = inr a' ->
    exists results,
      Forall2 (location_result geodesic_miles track profiles method) locations results /\
      pa_total a' == pa_total a + Qsum (map location_payout (combine locations results)) /\
      pa_triggered_any a' = pa_triggered_any a || existsb triggered results.
Proof.
  intros Hnn. induction locations as [|loc rest IH]; intros a a'; simpl.
  - intros [= <-]. exists []. split; [constructor|]. split; [simpl; lra|].
    simpl. now rewrite orb_false_r.
  - unfold portfolio_step.
    destruct (resolve_profile profiles loc) as [e|table] eqn:Hprof; [discriminate|].
    destruct (evaluate_payout_complex geodesic_miles track _ method) as [e|res] eqn:Hres;
      [discriminate|].
    intros Hloop. apply IH in Hloop. destruct Hloop as (results & Hall & Hsum & Htrig).
    simpl in Hsum, Htrig.
    exists (res :: results). split; [|split].
    + constructor; [|assumption]. exists table. split; assumption.
    + simpl. unfold location_payout at 1. simpl. rewrite Hsum.
      destruct (triggered res) eqn:Htr; [lra|].
      assert (H0 : payout_ratio res == 0).
      { eapply untriggered_pays_nothing; [|exact Hres|exact Htr]. simpl.
        rewrite Forall_forall in Hnn. apply Hnn.
        eapply resolve_profile_in; eassumption. }
      rewrite H0. lra.
    + simpl. rewrite Htrig. now rewrite orb_assoc.
Qed.

Lemma py_min_Qmin (a b : Q) : py_min a b == Qmin a b.
Proof.
  destruct (py_min_cases a b) as [[-> H]|[-> H]].
  - symmetry. now apply Q.min_l.
  - symmetry. apply Q.min_r. now apply Qlt_le_weak.
Qed.

(** C3. When the portfolio evaluator returns, over tables whose payout
    fractions are not negative: its uncapped payout is the sum, over all the
    locations, of payout ratio x sublimit, each ratio being that of the
    single-location evaluator on the location's resolved table; its total
    payout is the minimum of that sum and the aggregate limit, computed from
    the very uncapped value it reports, and so at most the limit; and it is
    triggered exactly when some location is. *)
Theorem portfolio_total_is_capped_sum
        (geodesic_miles : Q -> Q -> Q -> Q -> option Q)
        (track : list point) (locations : list portfolio_location)
        (aggregate_limit : Q) (profiles : list (string * payout_table_t))
        (method : string) (pres : portfolio_result) :
  Forall fractions_nonneg (map snd profiles) ->
  evaluate_portfolio_complex geodesic_miles track locations aggregate_limit
                             profiles method = inr pres ->
  exists results : list result,
    Forall2 (location_result geodesic_miles track profiles method) locations results /\
    uncapped_payout pres == Qsum (map location_payout (combine locations results)) /\
    total_payout pres ==
      Qmin (Qsum (map location_payout (combine locations results))) aggregate_limit /\
    total_payout pres = py_min (uncapped_payout pres) aggregate_limit /\
    total_payout pres <= aggregate_limit /\
    (p_triggered pres = true <-> Exists (fun res => triggered res = true) results).
Proof.
  intros Hnn. unfold evaluate_portfolio_complex.
  destruct (portfolio_loop geodesic_miles track profiles method locations
                           (mkPacc 0 [] false)) as [e|a] eqn:Hloop; [discriminate|].
  intros [= <-]. simpl.
  destruct (portfolio_loop_sum geodesic_miles track profiles method Hnn _ _ _ Hloop)
    as (results & Hall & Hsum & Htrig).
  simpl in Hsum, Htrig.
  exists results. split; [assumption|].
  assert (Hs : pa_total a == Qsum (map location_payout (combine locations results)))
    by (rewrite Hsum; lra).
  split; [exact Hs|]. split; [|split; [reflexivity|split]].
  - rewrite py_min_Qmin. now rewrite Hs.
  - rewrite py_min_Qmin. apply Q.le_min_r.
  - rewrite Htrig. rewrite existsb_exists, Exists_exists. tauto.
Qed.

Lemma portfolio_total_is_capped_sum_witness :
  exists pres results,
    evaluate_portfolio_complex grid_miles scenario_track two_sites 1000000
                               sparse_profiles "max_outcome" = inr pres /\
    Forall2 (location_result grid_miles scenario_track sparse_profiles "max_outcome")
            two_sites results /\
    uncapped_payout pres == Qsum (map location_payout (combine two_sites results)) /\
    total_payout pres ==
      Qmin (Qsum (map location_payout (combine two_sites results))) 1000000 /\
    total_payout pres = py_min (uncapped_payout pres) 1000000 /\
    total_payout pres <= 1000000 /\
    (p_triggered pres = true <-> Exists (fun res => triggered res = true) results).
Proof.
  eexists.
  assert (Hnn : Forall fractions_nonneg (map snd sparse_profiles)).
  { unfold sparse_profiles, sparse_table, fractions_nonneg. simpl.
    repeat constructor; simpl; discriminate. }
  destruct (portfolio_total_is_capped_sum grid_miles scenario_track two_sites 1000000
              sparse_profiles "max_outcome" _ Hnn eq_refl) as (results & H).
  exists results. split; [reflexivity | exact H].
Defined.

(** Two locations at 600,000 each under a limit of 1,000,000. *)
Example aggregate_cap_scenario :
  match evaluate_portfolio_complex grid_miles scenario_track two_sites 1000000
                                   sparse_profiles "max_outcome" with
  | inr pres => total_payout pres == 1000000 /\ uncapped_payout pres == 1200000 /\
                p_triggered pres = true
  | inl _ => False
  end.
Proof. vm_compute. repeat split; intros; discriminate. Qed.

(** ** Monotonicity in the radius *)

Lemma max_cat_track_min (d : miles) (p : point) (a : acc) :
  max_cat_achieved (track_min d p a) = max_cat_achieved a.
Proof. unfold track_min. now destruct (miles_ltb d (min_dist a)). Qed.

Lemma max_cat_raise_cat (cat : Z) (a : acc) :
  max_cat_achieved (raise_cat cat a) = Z.max (max_cat_achieved a) cat.
Proof.
  unfold raise_cat. destruct (max_cat_achieved a <? cat)%Z eqn:E; simpl.
  - apply Z.ltb_lt in E. lia.
  - apply Z.ltb_ge in E. lia.
Qed.

Lemma within_mono (d : miles) (r1 r2 : Q) :
  r1 <= r2 -> within d r1 = true -> within d r2 = true.
Proof.
  intros Hr. destruct d as [q|]; simpl; [|discriminate].
  rewrite !Qle_bool_iff. intros H. lra.
Qed.

Section Radius.

Variable geodesic_miles : Q -> Q -> Q -> Q -> option Q.
Variables lat_p lon_p r1 r2 : Q.
Hypothesis r1_le_r2 : r1 <= r2.
Variable table : payout_table_t.

Let loc1 : location := mkLocation lat_p lon_p r1.
Let loc2 : location := mkLocation lat_p lon_p r2.

(** A segment that reaches the smaller radius reaches the larger one, at the
    same closest point. *)
Lemma interpolate_segment_mono (p1 p2 i : point) :
  interpolate_segment geodesic_miles p1 p2 loc1 = Some i ->
  interpolate_segment geodesic_miles p1 p2 loc2 = Some i.
Proof.
  unfold interpolate_segment, projection_t. simpl.
  destruct (Qeq_bool (LAT p2 - LAT p1) 0 && Qeq_bool (LON p2 - LON p1) 0);
    [discriminate|].
  match goal with |- context [within ?d r1] => destruct (within d r1) eqn:E end;
    [|discriminate].
  rewrite (within_mono _ _ _ r1_le_r2 E). trivial.
Qed.

(** *** The ['max_outcome'] branch *)

Lemma max_outcome_step_grows (a : acc) (seg : point * point) :
  (max_cat_achieved a <= max_cat_achieved (max_outcome_step geodesic_miles loc2 table a seg))%Z.
Proof.
  destruct seg as [p1 p2]. unfold max_outcome_step.
  destruct (interpolate_segment geodesic_miles p1 p2 loc2) as [i|].
  - rewrite max_cat_raise_cat. destruct (dist i);
      rewrite ?max_cat_track_min; lia.
  - rewrite max_cat_track_min. lia.
Qed.

Lemma max_outcome_step_mono (a1 a2 : acc) (seg : point * point) :
  (max_cat_achieved a1 <= max_cat_achieved a2)%Z ->
  (max_cat_achieved (max_outcome_step geodesic_miles loc1 table a1 seg)
   <= max_cat_achieved (max_outcome_step geodesic_miles loc2 table a2 seg))%Z.
Proof.
  intros Hle. destruct seg as [p1 p2].
  destruct (interpolate_segment geodesic_miles p1 p2 loc1) as [i|] eqn:E1.
  - unfold max_outcome_step. rewrite E1, (interpolate_segment_mono _ _ _ E1).
    rewrite !max_cat_raise_cat. destruct (dist i);
      rewrite ?max_cat_track_min; simpl; lia.
  - pose proof (max_outcome_step_grows a2 (p1, p2)) as Hg.
    unfold max_outcome_step at 1. rewrite E1. rewrite max_cat_track_min. lia.
Qed.

Lemma max_outcome_fold_mono (segs : list (point * point)) : forall a1 a2,
  (max_cat_achieved a1 <= max_cat_achieved a2)%Z ->
  (max_cat_achieved (fold_left (max_outcome_step geodesic_miles loc1 table) segs a1)
   <= max_cat_achieved (fold_left (max_outcome_step geodesic_miles loc2 table) segs a2))%Z.
Proof.
  induction segs as [|seg segs IH]; intros a1 a2 Hle; simpl; [assumption|].
  apply IH. now apply max_outcome_step_mono.
Qed.

Lemma max_outcome_scan_mono (track : list point) :
  (max_cat_achieved (max_outcome_scan geodesic_miles loc1 table track)
   <= max_cat_achieved (max_outcome_scan geodesic_miles loc2 table track))%Z.
Proof.
  unfold max_outcome_scan.
  pose proof (max_outcome_fold_mono (segments track) acc0 acc0 (Z.le_refl _)) as H.
  destruct (last_point track); rewrite ?max_cat_track_min; exact H.
Qed.

(** *** The ['interpolated'] branch *)

Lemma sub_refl (l : list point) : sub l l.
Proof. induction l; constructor; assumption. Qed.

Lemma sub_app (l1 l2 m1 m2 : list point) :
  sub l1 l2 -> sub m1 m2 -> sub (l1 ++ m1) (l2 ++ m2).
Proof.
  intros Hl Hm. induction Hl; simpl; [assumption | |]; constructor; assumption.
Qed.

Lemma interpolated_step_sub (seg : point * point) :
  sub (interpolated_step geodesic_miles loc1 seg)
      (interpolated_step geodesic_miles loc2 seg).
Proof.
  destruct seg as [p1 p2]. unfold interpolated_step.
  destruct (interpolate_segment geodesic_miles p1 p2 loc1) as [i|] eqn:E1.
  - rewrite (interpolate_segment_mono _ _ _ E1). apply sub_refl.
  - destruct (interpolate_segment geodesic_miles p1 p2 loc2) as [i|].
    + apply sub_skip. apply sub_refl.
    + apply sub_refl.
Qed.

Lemma interpolated_points_sub (track : list point) :
  sub (interpolated_points geodesic_miles loc1 track)
      (interpolated_points geodesic_miles loc2 track).
Proof.
  unfold interpolated_points. apply sub_app.
  - induction (segments track) as [|seg segs IH]; simpl; [constructor|].
    apply sub_app; [apply interpolated_step_sub | exact IH].
  - apply sub_refl.
Qed.

Lemma check_point_grows (r : Q) (a : acc) (pt : point) :
  (max_cat_achieved a <= max_cat_achieved (check_point r table a pt))%Z.
Proof.
  unfold check_point. destruct (dist pt) as [d|]; [|lia].
  destruct (within d r);
    rewrite ?max_cat_raise_cat, ?max_cat_track_min; lia.
Qed.

Lemma check_point_mono (a1 a2 : acc) (pt : point) :
  (max_cat_achieved a1 <= max_cat_achieved a2)%Z ->
  (max_cat_achieved (check_point r1 table a1 pt)
   <= max_cat_achieved (check_point r2 table a2 pt))%Z.
Proof.
  intros Hle. unfold check_point. destruct (dist pt) as [d|]; [|assumption].
  destruct (within d r1) eqn:E1.
  - rewrite (within_mono _ _ _ r1_le_r2 E1).
    rewrite !max_cat_raise_cat, !max_cat_track_min. lia.
  - destruct (within d r2);
      rewrite ?max_cat_raise_cat, ?max_cat_track_min; lia.
Qed.

Lemma check_points_mono (pts1 pts2 : list point) :
  sub pts1 pts2 ->
  forall a1 a2,
    (max_cat_achieved a1 <= max_cat_achieved a2)%Z ->
    (max_cat_achieved (fold_left (check_point r1 table) pts1 a1)
     <= max_cat_achieved (fold_left (check_point r2 table) pts2 a2))%Z.
Proof.
  induction 1 as [|p l1 l2 _ IH|p l1 l2 _ IH]; intros a1 a2 Hle; simpl.
  - assumption.
  - apply IH. now apply check_point_mono.
  - apply IH. pose proof (check_point_grows r2 a2 p). lia.
Qed.

(** The achieved category does not go down when the radius goes up. *)
Lemma evaluate_core_category_mono (track : list point) (method : string) :
  (max_category_inside_radius (evaluate_core geodesic_miles track loc1 table method)
   <= max_category_inside_radius (evaluate_core geodesic_miles track loc2 table method))%Z.
Proof.
  unfold evaluate_core. simpl.
  destruct (String.eqb method "interpolated").
  - apply check_points_mono; [apply interpolated_points_sub | lia].
  - simpl. destruct (String.eqb method "max_outcome").
    + apply max_outcome_scan_mono.
    + simpl. lia.
Qed.

End Radius.

Lemma resolve_payout_source (table : payout_table_t) (C : Z) :
  resolve_payout table C = 0 \/
  exists row, In row table /\ (Category row <= C)%Z /\
              resolve_payout table C = Payout_Pct row.
Proof.
  unfold resolve_payout.
  destruct (filter (fun row => (Category row =? C)%Z) table) as [|m ms] eqn:Heq.
  - destruct (map Payout_Pct (filter (fun r => (Category r <=? C)%Z) table))
      as [|p ps] eqn:Hle; [now left|]. right.
    destruct (series_max_spec ps p) as [Hin _]. rewrite <- Hle in Hin.
    apply in_map_iff in Hin. destruct Hin as (r & Hr & Hrin).
    apply filter_In in Hrin. destruct Hrin as [Hrin Hrc]. apply Z.leb_le in Hrc.
    exists r. repeat split; auto.
  - right.
    assert (Hm : In m (filter (fun row => (Category row =? C)%Z) table))
      by (rewrite Heq; now left).
    apply filter_In in Hm. destruct Hm as [Hmin Hmc]. apply Z.eqb_eq in Hmc.
    exists m. repeat split; [assumption | lia].
Qed.

Lemma resolve_payout_covers (table : payout_table_t) (C : Z) (row : tier) :
  well_formed table -> In row table -> (Category row <= C)%Z ->
  Payout_Pct row <= resolve_payout table C.
Proof.
  intros [_ Hmono] Hin Hc. unfold resolve_payout.
  destruct (filter (fun r => (Category r =? C)%Z) table) as [|m ms] eqn:Heq.
  - destruct (map Payout_Pct (filter (fun r => (Category r <=? C)%Z) table))
      as [|p ps] eqn:Hle.
    + exfalso. apply map_eq_nil in Hle.
      pose proof (filter_nil_none _ _ Hle row Hin) as Hf. simpl in Hf.
      apply Z.leb_gt in Hf. lia.
    + destruct (series_max_spec ps p) as [_ Hmax]. rewrite <- Hle in Hmax.
      apply Hmax. apply in_map. apply filter_In.
      split; [assumption | now apply Z.leb_le].
  - assert (Hm : In m (filter (fun r => (Category r =? C)%Z) table))
      by (rewrite Heq; now left).
    apply filter_In in Hm. destruct Hm as [Hmin Hmc]. apply Z.eqb_eq in Hmc.
    apply Hmono; [assumption | assumption | lia].
Qed.

Lemma resolve_payout_mono (table : payout_table_t) (C1 C2 : Z) :
  well_formed table -> (C1 <= C2)%Z ->
  resolve_payout table C1 <= resolve_payout table C2.
Proof.
  intros Hwf Hle.
  destruct (resolve_payout_source table C1) as [->|(row & Hin & Hc & ->)].
  - apply resolve_payout_nonneg. apply Hwf.
  - apply resolve_payout_covers; [assumption | assumption | lia].
Qed.

(** C6. With the track, the coordinates of the location, the table and the
    method fixed, a larger radius never lowers the achieved category; and on a
    well-formed table (fractions not negative and not decreasing with the
    category) it never lowers the payout ratio. *)
Theorem larger_radius_never_lowers
        (geodesic_miles : Q -> Q -> Q -> Q -> option Q)
        (track : list point) (lat_p lon_p r1 r2 : Q) (table : payout_table_t)
        (method : string) :
  r1 <= r2 ->
  exists res1 res2,
    evaluate_payout_complex geodesic_miles track
      (mkPolicy (Some lat_p) (Some lon_p) (Some r1) table) method = inr res1 /\
    evaluate_payout_complex geodesic_miles track
      (mkPolicy (Some lat_p) (Some lon_p) (Some r2) table) method = inr res2 /\
    (max_category_inside_radius res1 <= max_category_inside_radius res2)%Z /\
    (well_formed table -> payout_ratio res1 <= payout_ratio res2).
Proof.
  intros Hr. eexists. eexists.
  split; [reflexivity|]. split; [reflexivity|].
  pose proof (evaluate_core_category_mono geodesic_miles lat_p lon_p r1 r2 Hr table
                                          track method) as Hcat.
  split; [exact Hcat|].
  intros Hwf. simpl in *. now apply resolve_payout_mono.
Qed.

Lemma larger_radius_never_lowers_witness :
  exists res1 res2,
    evaluate_payout_complex grid_miles scenario_track
      (mkPolicy (Some (257617 # 10000)) (Some (- (801918 # 10000))) (Some 10)
                standard_table) "interpolated" = inr res1 /\
    evaluate_payout_complex grid_miles scenario_track
      (mkPolicy (Some (257617 # 10000)) (Some (- (801918 # 10000))) (Some 50)
                standard_table) "interpolated" = inr res2 /\
    (max_category_inside_radius res1 <= max_category_inside_radius res2)%Z /\
    (well_formed standard_table -> payout_ratio res1 <= payout_ratio res2).
Proof.
  apply (larger_radius_never_lowers grid_miles scenario_track
           (257617 # 10000) (- (801918 # 10000)) 10 50 standard_table "interpolated").
  discriminate.
Defined.

Example standard_table_well_formed : well_formed standard_table.
Proof.
  split.
  - unfold fractions_nonneg, standard_table. repeat constructor; simpl; discriminate.
  - intros a b Ha Hb. unfold standard_table in Ha, Hb. simpl in Ha, Hb.
    repeat (destruct Ha as [<-|Ha]; [|]); try contradiction;
      repeat (destruct Hb as [<-|Hb]; [|]); try contradiction;
      simpl; intros Hc; try lia; try discriminate.
Qed.

Example radius_10_then_50 :
  let at_radius r :=
    evaluate_core grid_miles scenario_track
                  (mkLocation (257617 # 10000) (- (801918 # 10000)) r)
                  standard_table "interpolated" in
  max_category_inside_radius (at_radius 10) = 0%Z /\
  max_category_inside_radius (at_radius 50) = 4%Z.
Proof. vm_compute. split; reflexivity. Qed.

(** On a table whose fractions decrease with the category, the ratio can go
    down while the category goes up. *)
Example resolve_payout_not_monotone_on_ill_formed_table :
  let table := [ mkTier 1 (Some 64) None (1 # 2); mkTier 2 (Some 83) None (1 # 10) ] in
  resolve_payout table 1 = 1 # 2 /\ resolve_payout table 2 = 1 # 10.
Proof. split; reflexivity. Qed.

(** ** Raw points under ['max_outcome'] *)

(** Under ['max_outcome'] nothing is put in [points_to_check]: the category
    comes from the segments alone. *)
Lemma max_outcome_category_from_segments
      (geodesic_miles : Q -> Q -> Q -> Q -> option Q)
      (track : list point) (loc : location) (table : payout_table_t) :
  max_category_inside_radius (evaluate_core geodesic_miles track loc table "max_outcome")
  = max_cat_achieved
      (fold_left (max_outcome_step geodesic_miles loc table) (segments track) acc0).
Proof.
  unfold evaluate_core, max_outcome_scan. simpl.
  destruct (last_point track); rewrite ?max_cat_track_min; reflexivity.
Qed.

(** A track of one point has no segment. *)
Lemma max_outcome_single_point
      (geodesic_miles : Q -> Q -> Q -> Q -> option Q)
      (p : point) (loc : location) (table : payout_table_t) :
  max_category_inside_radius (evaluate_core geodesic_miles [p] loc table "max_outcome")
  = 0%Z.
Proof. now rewrite max_outcome_category_from_segments. Qed.

(** A segment between coincident points is never projected. *)
Lemma max_outcome_stationary_pair
      (geodesic_miles : Q -> Q -> Q -> Q -> option Q)
      (p : point) (loc : location) (table : payout_table_t) :
  max_category_inside_radius (evaluate_core geodesic_miles [p; p] loc table "max_outcome")
  = 0%Z.
Proof.
  rewrite max_outcome_category_from_segments. simpl.
  unfold interpolate_segment.
  assert (H : Qeq_bool (LAT p - LAT p) 0 && Qeq_bool (LON p - LON p) 0 = true).
  { apply coincident_test. split; reflexivity. }
  rewrite H. now rewrite max_cat_track_min.
Qed.

(** C1. The code at a one-point track, and at a stationary two-point track,
    lying on the location itself: the point is within the 50-mile radius and
    its classifier category is 5, the ['interpolated'] method reports category
    5, yet ['max_outcome'] reports category 0 and no trigger. The raw points
    of a track do not contribute their category under ['max_outcome']. *)
Theorem max_outcome_misses_point_inside_radius :
  within (calculate_distance_miles grid_miles (257617 # 10000) (- (801918 # 10000))
                                   (LAT landfall) (LON landfall)) 50 = true /\
  point_category standard_table landfall = 5%Z /\
  (exists res,
     evaluate_payout_complex grid_miles [landfall] (miami standard_table) "max_outcome"
       = inr res /\
     max_category_inside_radius res = 0%Z /\ triggered res = false) /\
  (exists res,
     evaluate_payout_complex grid_miles [landfall; landfall] (miami standard_table)
                             "max_outcome" = inr res /\
     max_category_inside_radius res = 0%Z /\ triggered res = false) /\
  (exists res,
     evaluate_payout_complex grid_miles [landfall] (miami standard_table) "interpolated"
       = inr res /\
     max_category_inside_radius res = 5%Z /\ triggered res = true).
Proof.
  split; [reflexivity|]. split; [reflexivity|].
  split; [|split]; eexists; (split; [reflexivity|]); vm_compute; split; reflexivity.
Qed.

(** * Further properties of the engine *)

(** ** Range and monotonicity of the classifier *)

Lemma scan_of_table (reaches : tier -> bool) (table : payout_table_t) :
  category_of_table table (scan reaches table).
Proof.
  destruct (scan_from reaches table 0%Z) as (_ & _ & [H|(row & Hin & _ & Hc)]).
  - now left.
  - right. now exists row.
Qed.

Lemma Zmax_of_table (table : payout_table_t) (a b : Z) :
  category_of_table table a -> category_of_table table b ->
  category_of_table table (Z.max a b).
Proof.
  intros Ha Hb. destruct (Z.max_spec a b) as [[_ ->]|[_ ->]]; assumption.
Qed.

Lemma cat_wind_nonneg (wind : option Q) (table : payout_table_t) :
  (0 <= cat_wind wind table)%Z.
Proof. destruct wind; simpl; [apply scan_nonneg | lia]. Qed.

Lemma cat_pres_nonneg (pressure : option Q) (table : payout_table_t) :
  (0 <= cat_pres pressure table)%Z.
Proof.
  destruct pressure as [p|]; simpl; [|lia].
  destruct (Qltb 0 p); [apply scan_nonneg | lia].
Qed.

Lemma determine_category_in_table (wind pressure : option Q) (table : payout_table_t) :
  category_of_table table (determine_category wind pressure table).
Proof.
  unfold determine_category. apply Zmax_of_table.
  - destruct wind; simpl; [apply scan_of_table | now left].
  - destruct pressure as [p|]; simpl; [|now left].
    destruct (Qltb 0 p); [apply scan_of_table | now left].
Qed.

(** X1. The classifier never invents a category: its result is 0 or the
    category of a tier of the table, and it is never negative. *)
Theorem determine_category_of_table (wind pressure : option Q) (table : payout_table_t) :
  category_of_table table (determine_category wind pressure table) /\
  (0 <= determine_category wind pressure table)%Z.
Proof.
  split; [apply determine_category_in_table|].
  pose proof (cat_wind_nonneg wind table). unfold determine_category. lia.
Qed.

Lemma scan_mono (f g : tier -> bool) (table : payout_table_t) :
  (forall row, f row = true -> g row = true) ->
  forall c1 c2, (c1 <= c2)%Z ->
    (fold_left (fun cat row => if f row then Z.max cat (Category row) else cat) table c1
     <= fold_left (fun cat row => if g row then Z.max cat (Category row) else cat)
                  table c2)%Z.
Proof.
  intros Hfg. induction table as [|r table IH]; intros c1 c2 Hle; simpl; [assumption|].
  apply IH. destruct (f r) eqn:Ef.
  - rewrite (Hfg r Ef). lia.
  - destruct (g r); lia.
Qed.

(** X2. A stronger storm is never classified lower: more wind and less
    (positive) pressure cannot decrease the category. *)
Theorem stronger_storm_never_lower_category
        (w1 w2 p1 p2 : Q) (table : payout_table_t) :
  w1 <= w2 -> 0 < p2 -> p2 <= p1 ->
  (determine_category (Some w1) (Some p1) table
   <= determine_category (Some w2) (Some p2) table)%Z.
Proof.
  intros Hw Hpos Hp. unfold determine_category.
  assert (H1 : (cat_wind (Some w1) table <= cat_wind (Some w2) table)%Z).
  { simpl. unfold scan. apply scan_mono; [|lia].
    intros row. unfold wind_reaches. destruct (Min_Wind row) as [m|]; [|discriminate].
    rewrite !Qle_bool_iff. intros H. lra. }
  assert (H2 : (cat_pres (Some p1) table <= cat_pres (Some p2) table)%Z).
  { simpl. assert (E2 : Qltb 0 p2 = true) by now apply Qltb_lt.
    assert (E1 : Qltb 0 p1 = true) by (apply Qltb_lt; lra).
    rewrite E1, E2. unfold scan. apply scan_mono; [|lia].
    intros row. unfold pressure_reaches. destruct (Max_Pressure row) as [m|]; [|discriminate].
    rewrite !Qle_bool_iff. intros H. lra. }
  lia.
Qed.

Lemma stronger_storm_never_lower_category_witness :
  Z.le (determine_category (Some 90) (Some 970) standard_table)
       (determine_category (Some 120) (Some 940) standard_table).
Proof.
  apply stronger_storm_never_lower_category; [discriminate | reflexivity | discriminate].
Defined.

(** X3. A reading never counts against the storm: a missing wind or pressure
    gives a category no higher than any reading in its place. *)
Theorem missing_reading_never_higher
        (wind pressure : option Q) (table : payout_table_t) :
  (determine_category None pressure table <= determine_category wind pressure table)%Z /\
  (determine_category wind None table <= determine_category wind pressure table)%Z.
Proof.
  pose proof (cat_wind_nonneg wind table) as H1.
  pose proof (cat_pres_nonneg pressure table) as H2.
  unfold determine_category. simpl. split; lia.
Qed.

(** ** Distances *)

Lemma miles_le_refl (a : miles) : miles_le a a.
Proof. destruct a; simpl; [apply Qle_refl | exact I]. Qed.

Lemma miles_le_Inf (a : miles) : miles_le a Inf.
Proof. destruct a; exact I. Qed.

Lemma miles_le_trans (a b c : miles) : miles_le a b -> miles_le b c -> miles_le a c.
Proof.
  destruct a, b, c; simpl; try tauto. apply Qle_trans.
Qed.

Lemma miles_le_antisym (a b : miles) : miles_le a b -> miles_le b a -> miles_eq a b.
Proof.
  destruct a, b; simpl; try tauto. apply Qle_antisym.
Qed.

Lemma miles_ltb_false (a b : miles) : miles_ltb a b = false -> miles_le b a.
Proof.
  destruct a, b; simpl; try tauto; try discriminate.
  apply Qltb_ge.
Qed.

Lemma miles_ltb_true (a b : miles) : miles_ltb a b = true -> miles_le a b.
Proof.
  destruct a, b; simpl; try tauto; try discriminate.
  intros H. apply Qltb_lt in H. now apply Qlt_le_weak.
Qed.

Lemma miles_min_spec (d m : miles) :
  miles_le (miles_min d m) d /\ miles_le (miles_min d m) m /\
  (miles_min d m = d \/ miles_min d m = m).
Proof.
  unfold miles_min. destruct (miles_ltb d m) eqn:E.
  - repeat split; [apply miles_le_refl | now apply miles_ltb_true | now left].
  - repeat split; [now apply miles_ltb_false | apply miles_le_refl | now right].
Qed.

Lemma min_over_spec (ds : list miles) : forall m,
  miles_le (min_over ds m) m /\
  (forall d, In d ds -> miles_le (min_over ds m) d) /\
  (min_over ds m = m \/ In (min_over ds m) ds).
Proof.
  unfold min_over. induction ds as [|d ds IH]; intros m; simpl.
  - repeat split; [apply miles_le_refl | intros d [] | now left].
  - destruct (IH (miles_min d m)) as (Hle & Hall & Hat).
    destruct (miles_min_spec d m) as (Hd & Hm & Hcase).
    repeat split.
    + eapply miles_le_trans; eassumption.
    + intros x [<-|Hx]; [eapply miles_le_trans; eassumption | now apply Hall].
    + destruct Hat as [Heq|Hin]; [|now right; right].
      rewrite Heq. destruct Hcase as [->| ->]; [right; now left | now left].
Qed.

Lemma min_over_app (l1 l2 : list miles) (m : miles) :
  min_over (l1 ++ l2) m = min_over l2 (min_over l1 m).
Proof. unfold min_over. apply fold_left_app. Qed.

Lemma within_miles_le (a b : miles) (r : Q) :
  miles_le a b -> within b r = true -> within a r = true.
Proof.
  destruct a, b; simpl; try tauto; try discriminate.
  rewrite !Qle_bool_iff. intros H1 H2. lra.
Qed.

Lemma min_dist_track_min (d : miles) (p : point) (a : acc) :
  min_dist (track_min d p a) = miles_min d (min_dist a).
Proof. unfold track_min, miles_min. now destruct (miles_ltb d (min_dist a)). Qed.

Lemma min_dist_raise_cat (cat : Z) (a : acc) :
  min_dist (raise_cat cat a) = min_dist a.
Proof. unfold raise_cat. now destruct (max_cat_achieved a <? cat)%Z. Qed.

(** What a projection that is returned carries. *)
Lemma interpolate_segment_some
      (geodesic_miles : Q -> Q -> Q -> Q -> option Q)
      (p1 p2 i : point) (loc : location) :
  interpolate_segment geodesic_miles p1 p2 loc = Some i ->
  exists d, dist i = Some d /\ within d (loc_radius_miles loc) = true.
Proof.
  unfold interpolate_segment.
  destruct (Qeq_bool (LAT p2 - LAT p1) 0 && Qeq_bool (LON p2 - LON p1) 0);
    [discriminate|].
  match goal with |- context [within ?d ?r] => destruct (within d r) eqn:E end;
    [|discriminate].
  intros [= <-]. simpl. eexists. split; [reflexivity | exact E].
Qed.

(** ** The track as segments and a last point *)

Lemma segments_cons2 (a b : point) (rest : list point) :
  segments (a :: b :: rest) = (a, b) :: segments (b :: rest).
Proof. reflexivity. Qed.

Lemma last_default (l : list point) (a b : point) : l <> [] -> last l a = last l b.
Proof.
  induction l as [|x l IH]; [contradiction|]. intros _.
  destruct l as [|y l]; [reflexivity|].
  change (last (y :: l) a = last (y :: l) b). apply IH. discriminate.
Qed.

Lemma last_point_cons2 (a b : point) (rest : list point) :
  last_point (a :: b :: rest) = last_point (b :: rest).
Proof.
  unfold last_point. f_equal. destruct rest as [|c rest]; [reflexivity|].
  change (last (c :: rest) a = last (c :: rest) b). apply last_default. discriminate.
Qed.

(** Every track point starts a segment or is the last point. *)
Lemma in_track_cases (track : list point) (p : point) :
  In p track <->
  (exists p2, In (p, p2) (segments track)) \/ last_point track = Some p.
Proof.
  induction track as [|a track IH]; [simpl; split; [tauto | intros [[? []]|[=]]]|].
  destruct track as [|b rest].
  - simpl. split.
    + intros [->|[]]. now right.
    + intros [[? []]|[= ->]]. now left.
  - rewrite segments_cons2, last_point_cons2. split.
    + intros [->|Hin].
      * left. exists b. now left.
      * apply IH in Hin. destruct Hin as [[p2 H]|H]; [|now right].
        left. exists p2. now right.
    + intros [[p2 [[= -> ->]|H]]|H].
      * now left.
      * right. apply IH. left. now exists p2.
      * right. apply IH. now right.
Qed.

(** ** The minimum distance *)

Lemma dists_of_app (l1 l2 : list point) :
  dists_of (l1 ++ l2) = dists_of l1 ++ dists_of l2.
Proof. unfold dists_of. apply flat_map_app. Qed.

Lemma in_dists_of (pts : list point) (d : miles) :
  In d (dists_of pts) <-> exists pt, In pt pts /\ dist pt = Some d.
Proof.
  unfold dists_of. rewrite in_flat_map. split; intros (pt & Hin & H); exists pt.
  - split; [assumption|]. destruct (dist pt) as [d'|]; [|destruct H].
    destruct H as [->|[]]. reflexivity.
  - split; [assumption|]. rewrite H. now left.
Qed.

Lemma check_points_min (r : Q) (table : payout_table_t) (pts : list point) : forall a,
  min_dist (fold_left (check_point r table) pts a) = min_over (dists_of pts) (min_dist a).
Proof.
  induction pts as [|pt pts IH]; intros a; [reflexivity|].
  change (pt :: pts) with ([pt] ++ pts) at 2. rewrite dists_of_app.
  rewrite min_over_app. simpl fold_left. rewrite IH. f_equal.
  unfold check_point, dists_of. simpl. destruct (dist pt) as [d|]; [|reflexivity].
  simpl. destruct (within d r);
    rewrite ?min_dist_raise_cat, min_dist_track_min; reflexivity.
Qed.

Section Distances.

Variable geodesic_miles : Q -> Q -> Q -> Q -> option Q.
Variable loc : location.
Variable table : payout_table_t.

Lemma in_interpolated_step (seg : point * point) (pt : point) :
  In pt (interpolated_step geodesic_miles loc seg) <->
  interpolate_segment geodesic_miles (fst seg) (snd seg) loc = Some pt \/
  pt = set_dist (fst seg) (raw_distance geodesic_miles loc (fst seg)).
Proof.
  destruct seg as [p1 p2]. unfold interpolated_step, raw_distance. simpl.
  destruct (interpolate_segment geodesic_miles p1 p2 loc) as [i|]; simpl; split.
  - intros [<-|[<-|[]]]; [now left | now right].
  - intros [[= ->]| ->]; [now left | right; now left].
  - intros [<-|[]]. now right.
  - intros [[=]| ->]. now left.
Qed.

Lemma in_interpolated_points (track : list point) (pt : point) :
  In pt (interpolated_points geodesic_miles loc track) <->
  (exists p1 p2, In (p1, p2) (segments track) /\
                 interpolate_segment geodesic_miles p1 p2 loc = Some pt) \/
  (exists p, In p track /\ pt = set_dist p (raw_distance geodesic_miles loc p)).
Proof.
  unfold interpolated_points. rewrite in_app_iff, in_flat_map. split.
  - intros [(seg & Hseg & Hin)|Hlast].
    + apply in_interpolated_step in Hin. destruct seg as [p1 p2]. simpl in Hin.
      destruct Hin as [H|H].
      * left. now exists p1, p2.
      * right. exists p1. split; [|assumption].
        apply in_track_cases. left. now exists p2.
    + destruct (last_point track) as [l|] eqn:El; [|destruct Hlast].
      destruct Hlast as [<-|[]]. right. exists l. split; [|reflexivity].
      apply in_track_cases. now right.
  - intros [(p1 & p2 & Hseg & H)|(p & Hin & ->)].
    + left. exists (p1, p2). split; [assumption|].
      apply in_interpolated_step. now left.
    + apply in_track_cases in Hin. destruct Hin as [[p2 Hseg]|Hlast].
      * left. exists (p, p2). split; [assumption|].
        apply in_interpolated_step. now right.
      * right. rewrite Hlast. now left.
Qed.

Lemma interpolated_candidates (track : list point) (d : miles) :
  In d (dists_of (interpolated_points geodesic_miles loc track)) <->
  candidate_distance geodesic_miles loc track d.
Proof.
  rewrite in_dists_of. unfold candidate_distance. split.
  - intros (pt & Hin & Hd). apply in_interpolated_points in Hin.
    destruct Hin as [(p1 & p2 & Hseg & H)|(p & Hin & ->)].
    + right. now exists p1, p2, pt.
    + left. exists p. split; [assumption|]. simpl in Hd. congruence.
  - intros [(p & Hin & ->)|(p1 & p2 & i & Hseg & H & Hd)].
    + exists (set_dist p (raw_distance geodesic_miles loc p)). split; [|reflexivity].
      apply in_interpolated_points. right. now exists p.
    + exists i. split; [|assumption].
      apply in_interpolated_points. left. now exists p1, p2.
Qed.

Lemma max_outcome_fold_min (segs : list (point * point)) : forall a,
  min_dist (fold_left (max_outcome_step geodesic_miles loc table) segs a)
  = min_over (flat_map (segment_distances geodesic_miles loc) segs) (min_dist a).
Proof.
  induction segs as [|[p1 p2] segs IH]; intros a; [reflexivity|].
  change (flat_map (segment_distances geodesic_miles loc) ((p1, p2) :: segs))
    with (segment_distances geodesic_miles loc (p1, p2)
          ++ flat_map (segment_distances geodesic_miles loc) segs).
  rewrite min_over_app. simpl fold_left. rewrite IH. f_equal.
  unfold max_outcome_step, segment_distances, raw_distance, dists_of. simpl.
  destruct (interpolate_segment geodesic_miles p1 p2 loc) as [i|]; simpl.
  - rewrite min_dist_raise_cat. destruct (dist i) as [di|]; simpl;
      rewrite ?min_dist_track_min; reflexivity.
  - now rewrite min_dist_track_min.
Qed.

Lemma max_outcome_scan_min (track : list point) :
  min_dist (max_outcome_scan geodesic_miles loc table track)
  = min_over (flat_map (segment_distances geodesic_miles loc) (segments track)
              ++ match last_point track with
                 | Some l => [raw_distance geodesic_miles loc l]
                 | None => []
                 end) Inf.
Proof.
  unfold max_outcome_scan. rewrite min_over_app.
  destruct (last_point track) as [l|].
  - rewrite min_dist_track_min, max_outcome_fold_min. reflexivity.
  - rewrite max_outcome_fold_min. reflexivity.
Qed.

Lemma max_outcome_candidates (track : list point) (d : miles) :
  In d (flat_map (segment_distances geodesic_miles loc) (segments track)
        ++ match last_point track with
           | Some l => [raw_distance geodesic_miles loc l]
           | None => []
           end) <->
  candidate_distance geodesic_miles loc track d.
Proof.
  rewrite in_app_iff, in_flat_map. unfold candidate_distance. split.
  - intros [([p1 p2] & Hseg & Hin)|Hlast].
    + unfold segment_distances in Hin. cbn [fst snd] in Hin. destruct Hin as [<-|Hin].
      * left. exists p1. split; [|reflexivity]. apply in_track_cases. left. now exists p2.
      * destruct (interpolate_segment geodesic_miles p1 p2 loc) as [i|] eqn:Ei;
          [|destruct Hin].
        apply in_dists_of in Hin. destruct Hin as (pt & [<-|[]] & Hd).
        right. now exists p1, p2, i.
    + destruct (last_point track) as [l|] eqn:El; [|destruct Hlast].
      destruct Hlast as [<-|[]]. left. exists l. split; [|reflexivity].
      apply in_track_cases. now right.
  - intros [(p & Hin & ->)|(p1 & p2 & i & Hseg & H & Hd)].
    + apply in_track_cases in Hin. destruct Hin as [[p2 Hseg]|Hlast].
      * left. exists (p, p2). split; [assumption|]. now left.
      * right. rewrite Hlast. now left.
    + left. exists (p1, p2). split; [assumption|].
      unfold segment_distances. cbn [fst snd]. right. rewrite H.
      apply in_dists_of. exists i. split; [now left | assumption].
Qed.

(** Under either known method, the reported minimum distance is the minimum
    over the candidates. *)
Lemma min_distance_is_minimum (track : list point) (method : string) :
  known_method method ->
  let m := min_distance_miles (evaluate_core geodesic_miles track loc table method) in
  (forall d, candidate_distance geodesic_miles loc track d -> miles_le m d) /\
  (m = Inf \/ candidate_distance geodesic_miles loc track m).
Proof.
  intros [->| ->]; unfold evaluate_core; simpl.
  - rewrite check_points_min. simpl.
    destruct (min_over_spec (dists_of (interpolated_points geodesic_miles loc track)) Inf)
      as (_ & Hall & Hat).
    split.
    + intros d Hd. apply Hall. now apply interpolated_candidates.
    + destruct Hat as [H|H]; [now left | right; now apply interpolated_candidates].
  - rewrite max_outcome_scan_min.
    match goal with |- context [min_over ?l Inf] =>
      destruct (min_over_spec l Inf) as (_ & Hall & Hat) end.
    split.
    + intros d Hd. apply Hall. now apply max_outcome_candidates.
    + destruct Hat as [H|H]; [now left | right; now apply max_outcome_candidates].
Qed.

End Distances.

(** ** The achieved category *)

Lemma check_points_cat (r : Q) (table : payout_table_t) (pts : list point) : forall a,
  let a' := fold_left (check_point r table) pts a in
  (max_cat_achieved a <= max_cat_achieved a')%Z /\
  (forall pt d, In pt pts -> dist pt = Some d -> within d r = true ->
                (point_category table pt <= max_cat_achieved a')%Z) /\
  (max_cat_achieved a' = max_cat_achieved a \/
   exists pt d, In pt pts /\ dist pt = Some d /\ within d r = true /\
                point_category table pt = max_cat_achieved a').
Proof.
  induction pts as [|p pts IH]; intros a; simpl.
  - repeat split; [lia | intros pt d [] | now left].
  - destruct (IH (check_point r table a p)) as (Hle & Hall & Hat).
    assert (Hp : (max_cat_achieved a <= max_cat_achieved (check_point r table a p))%Z /\
                 (forall d, dist p = Some d -> within d r = true ->
                            max_cat_achieved (check_point r table a p)
                            = Z.max (max_cat_achieved a) (point_category table p)) /\
                 (max_cat_achieved (check_point r table a p) = max_cat_achieved a \/
                  exists d, dist p = Some d /\ within d r = true /\
                            point_category table p
                            = max_cat_achieved (check_point r table a p))).
    { unfold check_point. destruct (dist p) as [d|].
      - destruct (within d r) eqn:Ew.
        + rewrite max_cat_raise_cat, max_cat_track_min. split; [|split].
          * lia.
          * intros d' _ _. reflexivity.
          * destruct (Z.max_spec (max_cat_achieved a) (point_category table p))
              as [[_ ->]|[_ ->]]; [|now left].
            right. exists d. split; [reflexivity|]. split; [assumption|reflexivity].
        + rewrite max_cat_track_min. split; [lia|]. split; [|now left].
          intros d' [= <-] H. congruence.
      - split; [lia|]. split; [discriminate | now left]. }
    destruct Hp as (Hp1 & Hp2 & Hp3). repeat split.
    + lia.
    + intros pt d [<-|Hin] Hd Hw.
      * rewrite (Hp2 d Hd Hw) in Hle. lia.
      * eapply Hall; eassumption.
    + destruct Hat as [Heq|(pt & d & Hin & Hd & Hw & Hc)].
      * destruct Hp3 as [Hsame|(d & Hd & Hw & Hc)]; [left; congruence|].
        right. exists p, d. repeat split; try assumption; [now left | congruence].
      * right. exists pt, d. repeat split; try assumption. now right.
Qed.

Lemma max_outcome_fold_cat
      (geodesic_miles : Q -> Q -> Q -> Q -> option Q)
      (loc : location) (table : payout_table_t) (segs : list (point * point)) :
  forall a,
  let a' := fold_left (max_outcome_step geodesic_miles loc table) segs a in
  (max_cat_achieved a <= max_cat_achieved a')%Z /\
  (forall seg i, In seg segs ->
                 interpolate_segment geodesic_miles (fst seg) (snd seg) loc = Some i ->
                 (segment_category table seg <= max_cat_achieved a')%Z) /\
  (max_cat_achieved a' = max_cat_achieved a \/
   exists seg i, In seg segs /\
                 interpolate_segment geodesic_miles (fst seg) (snd seg) loc = Some i /\
                 segment_category table seg = max_cat_achieved a').
Proof.
  induction segs as [|s segs IH]; intros a; simpl.
  - repeat split; [lia | intros seg i [] | now left].
  - destruct (IH (max_outcome_step geodesic_miles loc table a s)) as (Hle & Hall & Hat).
    assert (Hs : match interpolate_segment geodesic_miles (fst s) (snd s) loc with
                 | Some _ => max_cat_achieved (max_outcome_step geodesic_miles loc table a s)
                             = Z.max (max_cat_achieved a) (segment_category table s)
                 | None => max_cat_achieved (max_outcome_step geodesic_miles loc table a s)
                           = max_cat_achieved a
                 end).
    { destruct s as [p1 p2]. unfold max_outcome_step, segment_category. simpl.
      destruct (interpolate_segment geodesic_miles p1 p2 loc) as [i|].
      - rewrite max_cat_raise_cat. destruct (dist i); now rewrite ?max_cat_track_min.
      - now rewrite max_cat_track_min. }
    repeat split.
    + destruct (interpolate_segment geodesic_miles (fst s) (snd s) loc); lia.
    + intros seg i [<-|Hin] Hi.
      * rewrite Hi in Hs. lia.
      * eapply Hall; eassumption.
    + destruct Hat as [Heq|(seg & i & Hin & Hi & Hc)].
      * destruct (interpolate_segment geodesic_miles (fst s) (snd s) loc) as [i|] eqn:Ei.
        -- destruct (Z.max_spec (max_cat_achieved a) (segment_category table s))
             as [[_ Hm]|[_ Hm]].
           ++ right. exists s, i. repeat split; [now left | assumption | congruence].
           ++ left. congruence.
        -- left. congruence.
      * right. exists seg, i. repeat split; try assumption. now right.
Qed.

Lemma point_category_set_dist (table : payout_table_t) (p : point) (d : miles) :
  point_category table (set_dist p d) = point_category table p.
Proof. reflexivity. Qed.

Lemma point_category_in_table (table : payout_table_t) (p : point) :
  category_of_table table (point_category table p).
Proof. apply determine_category_in_table. Qed.

(** Whatever the method, the achieved category is 0 or a category of the
    table. *)
Lemma evaluate_core_category_in_table
      (geodesic_miles : Q -> Q -> Q -> Q -> option Q)
      (track : list point) (loc : location) (table : payout_table_t) (method : string) :
  category_of_table table
    (max_category_inside_radius (evaluate_core geodesic_miles track loc table method)).
Proof.
  unfold evaluate_core. simpl.
  destruct (String.eqb method "interpolated").
  - destruct (check_points_cat (loc_radius_miles loc) table
                (interpolated_points geodesic_miles loc track) acc0)
      as (_ & _ & [H|(pt & d & _ & _ & _ & H)]).
    + left. exact H.
    + rewrite <- H. apply point_category_in_table.
  - destruct (String.eqb method "max_outcome"); [|now left].
    simpl. unfold max_outcome_scan.
    destruct (max_outcome_fold_cat geodesic_miles loc table (segments track) acc0)
      as (_ & _ & Hat).
    assert (H : category_of_table table
                  (max_cat_achieved
                     (fold_left (max_outcome_step geodesic_miles loc table)
                                (segments track) acc0))).
    { destruct Hat as [H|(seg & i & _ & _ & H)].
      - left. exact H.
      - rewrite <- H. apply Zmax_of_table; apply point_category_in_table. }
    destruct (last_point track); rewrite ?max_cat_track_min; exact H.
Qed.

(** X4. Under ['interpolated'] the achieved category is the highest
    classifier category among the records within the radius: every track point
    within the radius and every segment projection that is returned counts,
    and the category is 0 or the category of one of them. *)
Theorem interpolated_category_is_highest
        (geodesic_miles : Q -> Q -> Q -> Q -> option Q)
        (track : list point) (lat_p lon_p radius : Q) (table : payout_table_t)
        (res : result) :
  evaluate_payout_complex geodesic_miles track
    (mkPolicy (Some lat_p) (Some lon_p) (Some radius) table) "interpolated" = inr res ->
  let loc := mkLocation lat_p lon_p radius in
  let C := max_category_inside_radius res in
  (forall p, In p track -> within (raw_distance geodesic_miles loc p) radius = true ->
             (point_category table p <= C)%Z) /\
  (forall p1 p2 i, In (p1, p2) (segments track) ->
                   interpolate_segment geodesic_miles p1 p2 loc = Some i ->
                   (point_category table i <= C)%Z) /\
  (C = 0%Z \/
   (exists p, In p track /\ within (raw_distance geodesic_miles loc p) radius = true /\
              point_category table p = C) \/
   (exists p1 p2 i, In (p1, p2) (segments track) /\
                    interpolate_segment geodesic_miles p1 p2 loc = Some i /\
                    point_category table i = C)).
Proof.
  intros [= <-]. intros loc C.
  destruct (check_points_cat radius table (interpolated_points geodesic_miles loc track)
                             acc0) as (_ & Hall & Hat).
  fold C in Hall, Hat. split; [|split].
  - intros p Hin Hw.
    apply (Hall (set_dist p (raw_distance geodesic_miles loc p))
                (raw_distance geodesic_miles loc p)); [|reflexivity|assumption].
    apply in_interpolated_points. right. now exists p.
  - intros p1 p2 i Hseg Hi.
    destruct (interpolate_segment_some _ _ _ _ _ Hi) as (d & Hd & Hw).
    apply (Hall i d); [|assumption|assumption].
    apply in_interpolated_points. left. now exists p1, p2.
  - destruct Hat as [H|(pt & d & Hin & Hd & Hw & Hc)]; [now left|]. right.
    apply in_interpolated_points in Hin.
    destruct Hin as [(p1 & p2 & Hseg & Hi)|(p & Hin & ->)].
    + right. now exists p1, p2, pt.
    + left. exists p. simpl in Hd. injection Hd as <-. repeat split; assumption.
Qed.

Lemma interpolated_category_is_highest_witness :
  let loc := mkLocation (257617 # 10000) (- (801918 # 10000)) 50 in
  let C := max_category_inside_radius
             (evaluate_core grid_miles scenario_track loc standard_table "interpolated") in
  (forall p, In p scenario_track -> within (raw_distance grid_miles loc p) 50 = true ->
             (point_category standard_table p <= C)%Z) /\
  (forall p1 p2 i, In (p1, p2) (segments scenario_track) ->
                   interpolate_segment grid_miles p1 p2 loc = Some i ->
                   (point_category standard_table i <= C)%Z) /\
  (C = 0%Z \/
   (exists p, In p scenario_track /\ within (raw_distance grid_miles loc p) 50 = true /\
              point_category standard_table p = C) \/
   (exists p1 p2 i, In (p1, p2) (segments scenario_track) /\
                    interpolate_segment grid_miles p1 p2 loc = Some i /\
                    point_category standard_table i = C)).
Proof.
  exact (interpolated_category_is_highest grid_miles scenario_track
           (257617 # 10000) (- (801918 # 10000)) 50 standard_table _ eq_refl).
Defined.

(** X5. Under ['max_outcome'] the achieved category is the highest segment
    category among the segments whose projection is returned, a segment's
    category being the higher of its two end points' categories; it is 0 when
    no segment is projected within the radius. *)
Theorem max_outcome_category_is_highest_segment
        (geodesic_miles : Q -> Q -> Q -> Q -> option Q)
        (track : list point) (lat_p lon_p radius : Q) (table : payout_table_t)
        (res : result) :
  evaluate_payout_complex geodesic_miles track
    (mkPolicy (Some lat_p) (Some lon_p) (Some radius) table) "max_outcome" = inr res ->
  let loc := mkLocation lat_p lon_p radius in
  let C := max_category_inside_radius res in
  (forall seg i, In seg (segments track) ->
                 interpolate_segment geodesic_miles (fst seg) (snd seg) loc = Some i ->
                 (segment_category table seg <= C)%Z) /\
  (C = 0%Z \/
   exists seg i, In seg (segments track) /\
                 interpolate_segment geodesic_miles (fst seg) (snd seg) loc = Some i /\
                 segment_category table seg = C) /\
  ((forall seg, In seg (segments track) ->
                interpolate_segment geodesic_miles (fst seg) (snd seg) loc = None) ->
   C = 0%Z).
Proof.
  intros [= <-]. intros loc C.
  assert (HC : C = max_cat_achieved
                     (fold_left (max_outcome_step geodesic_miles loc table)
                                (segments track) acc0))
    by apply max_outcome_category_from_segments.
  destruct (max_outcome_fold_cat geodesic_miles loc table (segments track) acc0)
    as (_ & Hall & Hat).
  rewrite <- HC in Hall, Hat. split; [exact Hall|]. split; [exact Hat|].
  intros Hnone. destruct Hat as [H|(seg & i & Hin & Hi & _)]; [exact H|].
  rewrite (Hnone seg Hin) in Hi. discriminate.
Qed.

Lemma max_outcome_category_is_highest_segment_witness :
  let loc := mkLocation (257617 # 10000) (- (801918 # 10000)) 50 in
  let C := max_category_inside_radius
             (evaluate_core grid_miles scenario_track loc standard_table "max_outcome") in
  (forall seg i, In seg (segments scenario_track) ->
                 interpolate_segment grid_miles (fst seg) (snd seg) loc = Some i ->
                 (segment_category standard_table seg <= C)%Z) /\
  (C = 0%Z \/
   exists seg i, In seg (segments scenario_track) /\
                 interpolate_segment grid_miles (fst seg) (snd seg) loc = Some i /\
                 segment_category standard_table seg = C) /\
  ((forall seg, In seg (segments scenario_track) ->
                interpolate_segment grid_miles (fst seg) (snd seg) loc = None) ->
   C = 0%Z).
Proof.
  exact (max_outcome_category_is_highest_segment grid_miles scenario_track
           (257617 # 10000) (- (801918 # 10000)) 50 standard_table _ eq_refl).
Defined.

(** X6. Whatever the method, the achieved category is 0 or the category of a
    tier of the table; so for an achieved category other than 0 the payout
    ratio is always the fraction of a tier of exactly that category: the
    search among lower tiers is only ever reached at category 0. *)
Theorem achieved_category_has_its_tier
        (geodesic_miles : Q -> Q -> Q -> Q -> option Q)
        (track : list point) (pol : policy) (method : string) (res : result) :
  evaluate_payout_complex geodesic_miles track pol method = inr res ->
  category_of_table (payout_table pol) (max_category_inside_radius res) /\
  (max_category_inside_radius res <> 0%Z ->
   exists row, In row (payout_table pol) /\
               Category row = max_category_inside_radius res /\
               payout_ratio res = Payout_Pct row).
Proof.
  intros Hres. apply evaluate_payout_complex_inv in Hres.
  destruct Hres as (lat_p & lon_p & radius & _ & _ & _ & ->).
  pose proof (evaluate_core_category_in_table geodesic_miles track
                (mkLocation lat_p lon_p radius) (payout_table pol) method) as Hin.
  split; [exact Hin|]. intros Hnz.
  destruct Hin as [H0|Hrow]; [contradiction|].
  exact (proj1 (resolve_payout_resolution (payout_table pol) _) Hrow).
Qed.

Lemma achieved_category_has_its_tier_witness :
  let res := evaluate_core grid_miles scenario_track
                           (mkLocation (257617 # 10000) (- (801918 # 10000)) 50)
                           sparse_table "max_outcome" in
  category_of_table sparse_table (max_category_inside_radius res) /\
  (max_category_inside_radius res <> 0%Z ->
   exists row, In row sparse_table /\
               Category row = max_category_inside_radius res /\
               payout_ratio res = Payout_Pct row).
Proof.
  exact (achieved_category_has_its_tier grid_miles scenario_track
           (miami sparse_table) "max_outcome" _ eq_refl).
Defined.

(** ** What the minimum distance tells *)

(** X7. Under either known method the reported minimum distance is a lower
    bound of the distance to every track point and to every returned segment
    projection, and it is infinite or one of those distances. *)
Theorem min_distance_over_points_and_projections
        (geodesic_miles : Q -> Q -> Q -> Q -> option Q)
        (track : list point) (lat_p lon_p radius : Q) (table : payout_table_t)
        (method : string) (res : result) :
  known_method method ->
  evaluate_payout_complex geodesic_miles track
    (mkPolicy (Some lat_p) (Some lon_p) (Some radius) table) method = inr res ->
  let loc := mkLocation lat_p lon_p radius in
  let m := min_distance_miles res in
  (forall p, In p track -> miles_le m (raw_distance geodesic_miles loc p)) /\
  (forall p1 p2 i d, In (p1, p2) (segments track) ->
                     interpolate_segment geodesic_miles p1 p2 loc = Some i ->
                     dist i = Some d -> miles_le m d) /\
  (m = Inf \/ candidate_distance geodesic_miles loc track m).
Proof.
  intros Hm [= <-]. intros loc m.
  destruct (min_distance_is_minimum geodesic_miles loc table track method Hm)
    as [Hall Hat].
  fold m in Hall, Hat. split; [|split; [|exact Hat]].
  - intros p Hin. apply Hall. left. now exists p.
  - intros p1 p2 i d Hseg Hi Hd. apply Hall. right. now exists p1, p2, i.
Qed.

Lemma min_distance_over_points_and_projections_witness :
  let loc := mkLocation (257617 # 10000) (- (801918 # 10000)) 50 in
  let m := min_distance_miles
             (evaluate_core grid_miles scenario_track loc standard_table "max_outcome") in
  (forall p, In p scenario_track -> miles_le m (raw_distance grid_miles loc p)) /\
  (forall p1 p2 i d, In (p1, p2) (segments scenario_track) ->
                     interpolate_segment grid_miles p1 p2 loc = Some i ->
                     dist i = Some d -> miles_le m d) /\
  (m = Inf \/ candidate_distance grid_miles loc scenario_track m).
Proof.
  exact (min_distance_over_points_and_projections grid_miles scenario_track
           (257617 # 10000) (- (801918 # 10000)) 50 standard_table "max_outcome" _
           (or_intror eq_refl) eq_refl).
Defined.

(** X8. The reported minimum distance does not depend on the method: the
    ['interpolated'] and ['max_outcome'] evaluations of the same track and
    location report the same number. *)
Theorem min_distance_same_for_both_methods
        (geodesic_miles : Q -> Q -> Q -> Q -> option Q)
        (track : list point) (lat_p lon_p radius : Q) (table1 table2 : payout_table_t)
        (res1 res2 : result) :
  evaluate_payout_complex geodesic_miles track
    (mkPolicy (Some lat_p) (Some lon_p) (Some radius) table1) "interpolated" = inr res1 ->
  evaluate_payout_complex geodesic_miles track
    (mkPolicy (Some lat_p) (Some lon_p) (Some radius) table2) "max_outcome" = inr res2 ->
  miles_eq (min_distance_miles res1) (min_distance_miles res2).
Proof.
  intros [= <-] [= <-].
  destruct (min_distance_is_minimum geodesic_miles (mkLocation lat_p lon_p radius) table1
                                    track "interpolated" (or_introl eq_refl))
    as [Hall1 Hat1].
  destruct (min_distance_is_minimum geodesic_miles (mkLocation lat_p lon_p radius) table2
                                    track "max_outcome" (or_intror eq_refl))
    as [Hall2 Hat2].
  cbv zeta in Hall1, Hat1, Hall2, Hat2.
  apply miles_le_antisym.
  - destruct Hat2 as [E|H]; [|now apply Hall1].
    rewrite E. apply miles_le_Inf.
  - destruct Hat1 as [E|H]; [|now apply Hall2].
    rewrite E. apply miles_le_Inf.
Qed.

Lemma min_distance_same_for_both_methods_witness :
  miles_eq
    (min_distance_miles
       (evaluate_core grid_miles scenario_track
                      (mkLocation (257617 # 10000) (- (801918 # 10000)) 50)
                      standard_table "interpolated"))
    (min_distance_miles
       (evaluate_core grid_miles scenario_track
                      (mkLocation (257617 # 10000) (- (801918 # 10000)) 50)
                      sparse_table "max_outcome")).
Proof.
  exact (min_distance_same_for_both_methods grid_miles scenario_track
           (257617 # 10000) (- (801918 # 10000)) 50 standard_table sparse_table _ _
           eq_refl eq_refl).
Defined.

Lemma resolve_payout_nonpositive (table : payout_table_t) (C : Z) :
  positive_categories table -> (C <= 0)%Z -> resolve_payout table C = 0.
Proof.
  intros Hpos HC. apply resolve_payout_below.
  unfold positive_categories in Hpos. rewrite Forall_forall in *.
  intros row Hin. specialize (Hpos row Hin). simpl in Hpos. lia.
Qed.

Lemma evaluate_core_category_nonneg
      (geodesic_miles : Q -> Q -> Q -> Q -> option Q)
      (track : list point) (loc : location) (table : payout_table_t) (method : string) :
  (0 <= max_category_inside_radius (evaluate_core geodesic_miles track loc table method))%Z.
Proof.
  unfold evaluate_core. simpl.
  destruct (String.eqb method "interpolated").
  - exact (proj1 (check_points_cat (loc_radius_miles loc) table _ acc0)).
  - destruct (String.eqb method "max_outcome"); simpl; [|lia].
    unfold max_outcome_scan.
    pose proof (proj1 (max_outcome_fold_cat geodesic_miles loc table
                                            (segments track) acc0)) as H.
    simpl in H. destruct (last_point track); rewrite ?max_cat_track_min; exact H.
Qed.

Lemma evaluate_core_interpolated
      (geodesic_miles : Q -> Q -> Q -> Q -> option Q)
      (track : list point) (loc : location) (table : payout_table_t) :
  evaluate_core geodesic_miles track loc table "interpolated" =
  let a := fold_left (check_point (loc_radius_miles loc) table)
                     (interpolated_points geodesic_miles loc track) acc0 in
  let ratio := resolve_payout table (max_cat_achieved a) in
  mkResult (Qltb 0 ratio) ratio (max_cat_achieved a) (max_cat_achieved a)
           (min_dist a) (closest a).
Proof. reflexivity. Qed.

Lemma evaluate_core_max_outcome
      (geodesic_miles : Q -> Q -> Q -> Q -> option Q)
      (track : list point) (loc : location) (table : payout_table_t) :
  evaluate_core geodesic_miles track loc table "max_outcome" =
  let a := max_outcome_scan geodesic_miles loc table track in
  let ratio := resolve_payout table (max_cat_achieved a) in
  mkResult (Qltb 0 ratio) ratio (max_cat_achieved a) (max_cat_achieved a)
           (min_dist a) (closest a).
Proof. reflexivity. Qed.

(** X9. No payout without a pass within the radius: on a table whose
    categories are positive, a triggered result has an achieved category of
    at least 1 and a minimum distance within the radius, whatever the
    method. *)
Theorem triggered_only_within_radius
        (geodesic_miles : Q -> Q -> Q -> Q -> option Q)
        (track : list point) (lat_p lon_p radius : Q) (table : payout_table_t)
        (method : string) (res : result) :
  positive_categories table ->
  evaluate_payout_complex geodesic_miles track
    (mkPolicy (Some lat_p) (Some lon_p) (Some radius) table) method = inr res ->
  triggered res = true ->
  (1 <= max_category_inside_radius res)%Z /\
  within (min_distance_miles res) radius = true.
Proof.
  intros Hpos [= <-] Htr.
  set (loc := mkLocation lat_p lon_p radius) in *.
  assert (HC : (1 <= max_category_inside_radius
                      (evaluate_core geodesic_miles track loc table method))%Z).
  { destruct (Z_le_gt_dec (max_category_inside_radius
                             (evaluate_core geodesic_miles track loc table method)) 0)
      as [Hle|Hgt]; [|lia].
    exfalso. unfold evaluate_core in Htr, Hle. simpl in Htr, Hle.
    rewrite (resolve_payout_nonpositive _ _ Hpos Hle) in Htr. discriminate. }
  split; [exact HC|].
  destruct (string_dec method "interpolated") as [->|Hi].
  - rewrite evaluate_core_interpolated in HC |- *. simpl in HC |- *.
    rewrite check_points_min.
    destruct (check_points_cat radius table (interpolated_points geodesic_miles loc track)
                               acc0) as (_ & _ & [H|(pt & d & Hin & Hd & Hw & _)]).
    + simpl in H. lia.
    + eapply within_miles_le; [|exact Hw].
      apply min_over_spec. apply in_dists_of. now exists pt.
  - destruct (string_dec method "max_outcome") as [->|Hm].
    + rewrite max_outcome_category_from_segments in HC.
      rewrite evaluate_core_max_outcome. simpl.
      destruct (max_outcome_fold_cat geodesic_miles loc table (segments track) acc0)
        as (_ & _ & [H|([p1 p2] & i & Hin & Hi' & _)]).
      * simpl in H. lia.
      * simpl in Hi'. destruct (interpolate_segment_some _ _ _ _ _ Hi') as (d & Hd & Hw).
        eapply within_miles_le; [|exact Hw].
        rewrite max_outcome_scan_min. apply min_over_spec.
        apply max_outcome_candidates. right. now exists p1, p2, i.
    + rewrite (evaluate_core_unknown _ _ _ _ _ Hi Hm) in HC. simpl in HC. lia.
Qed.

Lemma triggered_only_within_radius_witness :
  let res := evaluate_core grid_miles scenario_track
                           (mkLocation (257617 # 10000) (- (801918 # 10000)) 50)
                           standard_table "interpolated" in
  (1 <= max_category_inside_radius res)%Z /\
  within (min_distance_miles res) 50 = true.
Proof.
  apply (triggered_only_within_radius grid_miles scenario_track
           (257617 # 10000) (- (801918 # 10000)) 50 standard_table "interpolated").
  - unfold positive_categories, standard_table. repeat constructor.
  - reflexivity.
  - vm_compute. reflexivity.
Defined.

(** ** The closest point *)

Section Closest.

Variable geodesic_miles : Q -> Q -> Q -> Q -> option Q.
Variable loc : location.
Variable table : payout_table_t.

Lemma track_min_agrees (d : miles) (p : point) (a : acc) :
  raw_distance geodesic_miles loc p = d ->
  closest_agrees geodesic_miles loc a ->
  closest_agrees geodesic_miles loc (track_min d p a).
Proof.
  intros Hd Ha. unfold track_min. destruct (miles_ltb d (min_dist a)) eqn:E; [|exact Ha].
  destruct d as [q|]; [|discriminate].
  right. exists p, q. repeat split. exact Hd.
Qed.

Lemma raise_cat_agrees (cat : Z) (a : acc) :
  closest_agrees geodesic_miles loc a ->
  closest_agrees geodesic_miles loc (raise_cat cat a).
Proof.
  unfold raise_cat. destruct (max_cat_achieved a <? cat)%Z; [|trivial].
  intros H. exact H.
Qed.

Lemma interpolate_segment_dist (p1 p2 i : point) :
  interpolate_segment geodesic_miles p1 p2 loc = Some i -> dist_is_distance geodesic_miles loc i.
Proof.
  unfold interpolate_segment.
  destruct (Qeq_bool (LAT p2 - LAT p1) 0 && Qeq_bool (LON p2 - LON p1) 0);
    [discriminate|].
  match goal with |- context [within ?d ?r] => destruct (within d r) end;
    [|discriminate].
  intros [= <-] d [= <-]. reflexivity.
Qed.

Lemma interpolated_points_dist (track : list point) (pt : point) :
  In pt (interpolated_points geodesic_miles loc track) -> dist_is_distance geodesic_miles loc pt.
Proof.
  intros Hin. apply in_interpolated_points in Hin.
  destruct Hin as [(p1 & p2 & _ & Hi)|(p & _ & ->)].
  - eapply interpolate_segment_dist; eassumption.
  - intros d [= <-]. reflexivity.
Qed.

Lemma check_points_agree (r : Q) (pts : list point) :
  (forall pt, In pt pts -> dist_is_distance geodesic_miles loc pt) ->
  forall a, closest_agrees geodesic_miles loc a ->
            closest_agrees geodesic_miles loc (fold_left (check_point r table) pts a).
Proof.
  induction pts as [|pt pts IH]; intros Hpts a Ha; [exact Ha|].
  simpl. apply IH; [intros q Hq; apply Hpts; now right|].
  unfold check_point. destruct (dist pt) as [d|] eqn:Ed; [|exact Ha].
  assert (Hd : raw_distance geodesic_miles loc pt = d)
    by (apply (Hpts pt); [now left | exact Ed]).
  destruct (within d r); [apply raise_cat_agrees|]; now apply track_min_agrees.
Qed.

Lemma max_outcome_fold_agrees (segs : list (point * point)) :
  forall a, closest_agrees geodesic_miles loc a ->
            closest_agrees geodesic_miles loc
              (fold_left (max_outcome_step geodesic_miles loc table) segs a).
Proof.
  induction segs as [|[p1 p2] segs IH]; intros a Ha; [exact Ha|].
  simpl fold_left. apply IH. unfold max_outcome_step.
  assert (H1 : closest_agrees geodesic_miles loc
                 (track_min (calculate_distance_miles geodesic_miles (loc_lat loc)
                               (loc_lon loc) (LAT p1) (LON p1)) p1 a))
    by (apply track_min_agrees; [reflexivity | exact Ha]).
  destruct (interpolate_segment geodesic_miles p1 p2 loc) as [i|] eqn:Ei; [|exact H1].
  apply raise_cat_agrees. destruct (dist i) as [di|] eqn:Ed; [|exact H1].
  apply track_min_agrees; [|exact H1].
  exact (interpolate_segment_dist p1 p2 i Ei di Ed).
Qed.

Lemma evaluate_core_closest_agrees (track : list point) (method : string) :
  let res := evaluate_core geodesic_miles track loc table method in
  closest_agrees geodesic_miles loc
    (mkAcc (min_distance_miles res) (max_category_inside_radius res)
           (closest_point_data res)).
Proof.
  assert (H0 : closest_agrees geodesic_miles loc acc0) by (left; split; reflexivity).
  assert (Hre : forall a, closest_agrees geodesic_miles loc a ->
                  closest_agrees geodesic_miles loc
                    (mkAcc (min_dist a) (max_cat_achieved a) (closest a)))
    by (intros [m c p] H; exact H).
  destruct (string_dec method "interpolated") as [->|Hi].
  - rewrite evaluate_core_interpolated. cbv zeta. simpl.
    apply Hre. apply check_points_agree; [|exact H0].
    intros pt. apply interpolated_points_dist.
  - destruct (string_dec method "max_outcome") as [->|Hm].
    + rewrite evaluate_core_max_outcome. cbv zeta. simpl. apply Hre.
      unfold max_outcome_scan.
      pose proof (max_outcome_fold_agrees (segments track) acc0 H0) as H.
      destruct (last_point track) as [l|]; [|exact H].
      apply track_min_agrees; [reflexivity | exact H].
    + rewrite (evaluate_core_unknown _ _ _ _ _ Hi Hm). exact H0.
Qed.

End Closest.

(** X10. The closest point that is reported goes with the minimum distance
    that is reported: there is none exactly when the minimum distance is
    infinite, and otherwise it is a record whose distance to the location is
    the minimum distance. This holds for every method. *)
Theorem closest_point_at_min_distance
        (geodesic_miles : Q -> Q -> Q -> Q -> option Q)
        (track : list point) (lat_p lon_p radius : Q) (table : payout_table_t)
        (method : string) (res : result) :
  evaluate_payout_complex geodesic_miles track
    (mkPolicy (Some lat_p) (Some lon_p) (Some radius) table) method = inr res ->
  (closest_point_data res = None <-> min_distance_miles res = Inf) /\
  (forall p, closest_point_data res = Some p ->
             raw_distance geodesic_miles (mkLocation lat_p lon_p radius) p
             = min_distance_miles res).
Proof.
  intros [= <-].
  pose proof (evaluate_core_closest_agrees geodesic_miles
                (mkLocation lat_p lon_p radius) table track method) as H.
  cbv zeta in H. unfold closest_agrees in H. cbn [closest min_dist] in H.
  destruct H as [[Hc Hm]|(p & q & Hc & Hm & Hd)].
  - rewrite Hc, Hm. split; [tauto | discriminate].
  - rewrite Hc, Hm. split.
    + split; discriminate.
    + intros p' [= <-]. exact Hd.
Qed.

Lemma closest_point_at_min_distance_witness :
  let res := evaluate_core grid_miles scenario_track
                           (mkLocation (257617 # 10000) (- (801918 # 10000)) 50)
                           standard_table "interpolated" in
  (closest_point_data res = None <-> min_distance_miles res = Inf) /\
  (forall p, closest_point_data res = Some p ->
             raw_distance grid_miles (mkLocation (257617 # 10000) (- (801918 # 10000)) 50) p
             = min_distance_miles res).
Proof.
  exact (closest_point_at_min_distance grid_miles scenario_track
           (257617 # 10000) (- (801918 # 10000)) 50 standard_table "interpolated" _ eq_refl).
Defined.

(** ** The portfolio loop, entry by entry *)

Section Portfolio.

Variable geodesic_miles : Q -> Q -> Q -> Q -> option Q.
Variable track : list point.
Variable profiles : list (string * payout_table_t).
Variable method : string.

Lemma portfolio_step_entry (a : pacc) (loc : portfolio_location) :
  portfolio_step geodesic_miles track profiles method a loc =
  match location_entry geodesic_miles track profiles method loc with
  | inl e => inl e
  | inr b => inr (push_entry a b)
  end.
Proof.
  unfold portfolio_step, location_entry.
  destruct (resolve_profile profiles loc) as [e|table]; [reflexivity|].
  destruct (evaluate_payout_complex geodesic_miles track _ method) as [e|res];
    reflexivity.
Qed.

Lemma portfolio_loop_entries (locations : list portfolio_location) : forall a a',
  portfolio_loop geodesic_miles track profiles method locations a = inr a' <->
  exists bs,
    Forall2 (fun loc b => location_entry geodesic_miles track profiles method loc = inr b)
            locations bs /\
    a' = fold_left push_entry bs a.
Proof.
  induction locations as [|loc rest IH]; intros a a'; simpl.
  - split.
    + intros [= <-]. exists []. split; [constructor | reflexivity].
    + intros (bs & H & ->). inversion H. reflexivity.
  - rewrite portfolio_step_entry.
    destruct (location_entry geodesic_miles track profiles method loc) as [e|b] eqn:Eb.
    + split; [discriminate|]. intros (bs & H & _). inversion H; subst. congruence.
    + rewrite IH. split.
      * intros (bs & H & ->). exists (b :: bs). split; [now constructor | reflexivity].
      * intros (bs & H & ->). inversion H as [|? b' ? bs' Hb Hrest]; subst.
        assert (b' = b) by congruence. subst b'.
        exists bs'. split; [assumption | reflexivity].
Qed.

Lemma fold_push_entry (bs : list breakdown) : forall a,
  pa_details (fold_left push_entry bs a) = pa_details a ++ bs /\
  pa_total (fold_left push_entry bs a) == pa_total a + Qsum (map b_Payout bs) /\
  pa_triggered_any (fold_left push_entry bs a)
  = pa_triggered_any a || existsb b_Triggered bs.
Proof.
  induction bs as [|b bs IH]; intros a; simpl.
  - rewrite app_nil_r, orb_false_r. repeat split. lra.
  - destruct (IH (push_entry a b)) as (Hd & Ht & Ha). simpl in Hd, Ht, Ha.
    rewrite Hd, Ht, Ha, <- app_assoc, orb_assoc. repeat split. lra.
Qed.

Lemma location_entry_shape (loc : portfolio_location) (b : breakdown) :
  location_entry geodesic_miles track profiles method loc = inr b ->
  b_Location b = Name loc /\ (b_Triggered b = false -> b_Payout b = 0).
Proof.
  unfold location_entry.
  destruct (resolve_profile profiles loc) as [e|table]; [discriminate|].
  destruct (evaluate_payout_complex geodesic_miles track _ method) as [e|res];
    [discriminate|].
  intros [= <-]. simpl. split; [reflexivity|]. now intros ->.
Qed.

Lemma location_entry_lacks (loc : portfolio_location) :
  profiles <> [] -> lacks_geometry loc ->
  location_entry geodesic_miles track profiles method loc = inl ValueError.
Proof.
  intros Hne Hl. unfold location_entry.
  destruct (resolve_profile_total profiles loc Hne) as [table ->].
  unfold evaluate_payout_complex. simpl.
  destruct (pl_lat loc) eqn:E1, (pl_lon loc) eqn:E2, (pl_radius_miles loc) eqn:E3;
    try reflexivity.
  destruct Hl as [H|[H|H]]; congruence.
Qed.

Lemma location_entry_cases (loc : portfolio_location) :
  profiles <> [] ->
  location_entry geodesic_miles track profiles method loc = inl ValueError \/
  exists b, location_entry geodesic_miles track profiles method loc = inr b.
Proof.
  intros Hne. unfold location_entry.
  destruct (resolve_profile_total profiles loc Hne) as [table ->].
  unfold evaluate_payout_complex. simpl.
  destruct (pl_lat loc), (pl_lon loc), (pl_radius_miles loc);
    try (now left). right. eexists. reflexivity.
Qed.

Lemma portfolio_loop_lacks (locations : list portfolio_location) :
  profiles <> [] -> Exists lacks_geometry locations ->
  forall a, portfolio_loop geodesic_miles track profiles method locations a
            = inl ValueError.
Proof.
  intros Hne Hex. induction locations as [|loc rest IH]; intros a.
  - inversion Hex.
  - simpl. rewrite portfolio_step_entry.
    destruct (location_entry_cases loc Hne) as [->|[b Hb]]; [reflexivity|].
    rewrite Hb. apply IH. inversion Hex as [? ? Hl|? ? Hrest]; subst; [|assumption].
    rewrite (location_entry_lacks loc Hne Hl) in Hb. discriminate.
Qed.

End Portfolio.

Lemma existsb_perm {A : Type} (f : A -> bool) (l l' : list A) :
  Permutation.Permutation l l' -> existsb f l = existsb f l'.
Proof.
  induction 1; simpl.
  - reflexivity.
  - now rewrite IHPermutation.
  - rewrite !orb_assoc. f_equal. apply orb_comm.
  - congruence.
Qed.

Lemma py_min_compat (a a' b : Q) : a == a' -> py_min a b == py_min a' b.
Proof.
  intros H.
  destruct (py_min_cases a b) as [[-> H1]|[-> H1]];
    destruct (py_min_cases a' b) as [[-> H2]|[-> H2]]; lra.
Qed.

(** ** Portfolio results *)

(** X11. The breakdown of a portfolio result has one entry per location, in
    the order of the locations and under their names; an entry that is not
    triggered carries a payout of 0; the uncapped payout is the sum of the
    entries' payouts, and the portfolio is triggered exactly when an entry
    is. *)
Theorem breakdown_accounts_for_result
        (geodesic_miles : Q -> Q -> Q -> Q -> option Q)
        (track : list point) (locations : list portfolio_location)
        (aggregate_limit : Q) (profiles : list (string * payout_table_t))
        (method : string) (pres : portfolio_result) :
  evaluate_portfolio_complex geodesic_miles track locations aggregate_limit
                             profiles method = inr pres ->
  map b_Location (location_breakdown pres) = map Name locations /\
  Forall (fun b => b_Triggered b = false -> b_Payout b = 0) (location_breakdown pres) /\
  uncapped_payout pres == Qsum (map b_Payout (location_breakdown pres)) /\
  p_triggered pres = existsb b_Triggered (location_breakdown pres).
Proof.
  unfold evaluate_portfolio_complex.
  destruct (portfolio_loop geodesic_miles track profiles method locations
                           (mkPacc 0 [] false)) as [e|a] eqn:Hloop; [discriminate|].
  intros [= <-]. simpl.
  apply portfolio_loop_entries in Hloop. destruct Hloop as (bs & Hall & ->).
  assert (Hnames : map b_Location bs = map Name locations).
  { induction Hall as [|loc b locs bs' Hb _ IH]; [reflexivity|].
    simpl. rewrite IH.
    now rewrite (proj1 (location_entry_shape _ _ _ _ _ _ Hb)). }
  assert (Hzero : Forall (fun b => b_Triggered b = false -> b_Payout b = 0) bs).
  { clear Hnames. induction Hall as [|loc b locs bs' Hb _ IH]; [constructor|].
    constructor; [|assumption].
    exact (proj2 (location_entry_shape _ _ _ _ _ _ Hb)). }
  destruct (fold_push_entry bs (mkPacc 0 [] false)) as (Hd & Ht & Ha).
  simpl in Hd, Ht, Ha. rewrite Hd, Ha. split; [|split; [|split]].
  - exact Hnames.
  - exact Hzero.
  - rewrite Ht. lra.
  - reflexivity.
Qed.

Lemma breakdown_accounts_for_result_witness :
  exists pres,
    evaluate_portfolio_complex grid_miles scenario_track two_sites 1000000
                               sparse_profiles "max_outcome" = inr pres /\
    map b_Location (location_breakdown pres) = map Name two_sites /\
    Forall (fun b => b_Triggered b = false -> b_Payout b = 0) (location_breakdown pres) /\
    uncapped_payout pres == Qsum (map b_Payout (location_breakdown pres)) /\
    p_triggered pres = existsb b_Triggered (location_breakdown pres).
Proof.
  eexists. split; [reflexivity|].
  exact (breakdown_accounts_for_result grid_miles scenario_track two_sites 1000000
           sparse_profiles "max_outcome" _ eq_refl).
Defined.

(** X12. One location without its latitude, longitude or radius aborts the
    whole portfolio: with at least one profile, the evaluation raises
    [ValueError] wherever that location stands in the list and whatever the
    other locations are. *)
Theorem one_bad_location_aborts_portfolio
        (geodesic_miles : Q -> Q -> Q -> Q -> option Q)
        (track : list point) (locations : list portfolio_location)
        (aggregate_limit : Q) (profiles : list (string * payout_table_t))
        (method : string) :
  profiles <> [] -> Exists lacks_geometry locations ->
  evaluate_portfolio_complex geodesic_miles track locations aggregate_limit
                             profiles method = inl ValueError.
Proof.
  intros Hne Hex. unfold evaluate_portfolio_complex.
  now rewrite (portfolio_loop_lacks geodesic_miles track profiles method locations
                                    Hne Hex).
Qed.

Lemma one_bad_location_aborts_portfolio_witness :
  evaluate_portfolio_complex grid_miles scenario_track
    [ site "North" 1200000 "Sparse";
      mkPLoc "Adrift" (Some 25) None (Some 50) 1000 (Some "Sparse"%string) ]
    1000000 sparse_profiles "max_outcome" = inl ValueError.
Proof.
  apply one_bad_location_aborts_portfolio; [discriminate|].
  right. left. right. left. reflexivity.
Defined.

(** X13. The two empty inputs of the portfolio evaluator. Without any
    location it returns an untriggered result with an empty breakdown, an
    uncapped payout of 0 and a total that is the smaller of 0 and the limit.
    Without any profile, a portfolio of at least one location raises
    [IndexError]. *)
Theorem portfolio_empty_inputs
        (geodesic_miles : Q -> Q -> Q -> Q -> option Q)
        (track : list point) (aggregate_limit : Q) (method : string) :
  (forall profiles,
     evaluate_portfolio_complex geodesic_miles track [] aggregate_limit profiles method
     = inr (mkPortfolio false (py_min 0 aggregate_limit) 0 [])) /\
  (forall loc rest,
     evaluate_portfolio_complex geodesic_miles track (loc :: rest) aggregate_limit
                                [] method
     = inl IndexError).
Proof.
  split; [reflexivity|].
  intros loc rest. unfold evaluate_portfolio_complex. simpl.
  unfold portfolio_step, resolve_profile. simpl. reflexivity.
Qed.

(** X14. The order of the locations changes neither whether the evaluation
    returns, nor the triggered flag, nor any entry of the breakdown: if the
    evaluation of a list of locations returns, the evaluation of any
    permutation of it returns too, with the same triggered flag and the same
    breakdown entries, permuted. (The payouts themselves are accumulated in
    list order, see X11; nothing is said here of their sum.) *)
Theorem portfolio_order_irrelevant
        (geodesic_miles : Q -> Q -> Q -> Q -> option Q)
        (track : list point) (locations locations' : list portfolio_location)
        (aggregate_limit : Q) (profiles : list (string * payout_table_t))
        (method : string) (pres : portfolio_result) :
  Permutation locations locations' ->
  evaluate_portfolio_complex geodesic_miles track locations aggregate_limit
                             profiles method = inr pres ->
  exists pres',
    evaluate_portfolio_complex geodesic_miles track locations' aggregate_limit
                               profiles method = inr pres' /\
    p_triggered pres' = p_triggered pres /\
    Permutation (location_breakdown pres) (location_breakdown pres').
Proof.
  intros Hperm. unfold evaluate_portfolio_complex.
  destruct (portfolio_loop geodesic_miles track profiles method locations
                           (mkPacc 0 [] false)) as [e|a] eqn:Hloop; [discriminate|].
  intros [= <-]. simpl.
  apply portfolio_loop_entries in Hloop. destruct Hloop as (bs & Hall & ->).
  destruct (Permutation_Forall2 Hperm Hall) as (bs' & Hbs & Hall').
  assert (Hloop' : portfolio_loop geodesic_miles track profiles method locations'
                                  (mkPacc 0 [] false)
                   = inr (fold_left push_entry bs' (mkPacc 0 [] false))).
  { apply portfolio_loop_entries. exists bs'. split; [assumption | reflexivity]. }
  rewrite Hloop'. eexists. split; [reflexivity|]. simpl.
  destruct (fold_push_entry bs (mkPacc 0 [] false)) as (Hd & _ & Ha).
  destruct (fold_push_entry bs' (mkPacc 0 [] false)) as (Hd' & _ & Ha').
  simpl in Hd, Ha, Hd', Ha'. split.
  - rewrite Ha, Ha'. symmetry. now apply existsb_perm.
  - now rewrite Hd, Hd'.
Qed.

Lemma portfolio_order_irrelevant_witness :
  exists pres pres',
    evaluate_portfolio_complex grid_miles scenario_track
      [ site "North" 1200000 "Sparse"; site "South" 300000 "Sparse" ] 1000000
      sparse_profiles "max_outcome" = inr pres /\
    evaluate_portfolio_complex grid_miles scenario_track
      [ site "South" 300000 "Sparse"; site "North" 1200000 "Sparse" ] 1000000
      sparse_profiles "max_outcome" = inr pres' /\
    p_triggered pres' = p_triggered pres /\
    Permutation (location_breakdown pres) (location_breakdown pres').
Proof.
  eexists.
  destruct (portfolio_order_irrelevant grid_miles scenario_track
              [ site "North" 1200000 "Sparse"; site "South" 300000 "Sparse" ]
              [ site "South" 300000 "Sparse"; site "North" 1200000 "Sparse" ]
              1000000 sparse_profiles "max_outcome" _
              (perm_swap _ _ []) eq_refl) as (pres' & H).
  exists pres'. split; [reflexivity | exact H].
Defined.

(** X15. A portfolio that is not triggered pays nothing: its uncapped payout
    is 0, and so is its total payout when the aggregate limit is not
    negative. *)
Theorem untriggered_portfolio_pays_nothing
        (geodesic_miles : Q -> Q -> Q -> Q -> option Q)
        (track : list point) (locations : list portfolio_location)
        (aggregate_limit : Q) (profiles : list (string * payout_table_t))
        (method : string) (pres : portfolio_result) :
  evaluate_portfolio_complex geodesic_miles track locations aggregate_limit
                             profiles method = inr pres ->
  p_triggered pres = false ->
  uncapped_payout pres == 0 /\
  (0 <= aggregate_limit -> total_payout pres == 0).
Proof.
  unfold evaluate_portfolio_complex.
  destruct (portfolio_loop geodesic_miles track profiles method locations
                           (mkPacc 0 [] false)) as [e|a] eqn:Hloop; [discriminate|].
  intros [= <-]. simpl. intros Hnot.
  apply portfolio_loop_entries in Hloop. destruct Hloop as (bs & Hall & ->).
  destruct (fold_push_entry bs (mkPacc 0 [] false)) as (_ & Ht & Ha).
  simpl in Ht, Ha. rewrite Ha in Hnot.
  assert (Hzero : Qsum (map b_Payout bs) == 0).
  { clear Ht Ha. revert Hnot.
    induction Hall as [|loc b locs bs' Hb _ IH]; simpl; [reflexivity|].
    intros Hor. apply orb_false_iff in Hor. destruct Hor as [Hb0 Hrest].
    rewrite (proj2 (location_entry_shape _ _ _ _ _ _ Hb) Hb0).
    rewrite (IH Hrest). reflexivity. }
  assert (Hu : pa_total (fold_left push_entry bs (mkPacc 0 [] false)) == 0)
    by (rewrite Ht, Hzero; reflexivity).
  split; [exact Hu|]. intros Hlim.
  rewrite (py_min_compat _ 0 aggregate_limit Hu).
  destruct (py_min_cases 0 aggregate_limit) as [[-> _]|[-> H]]; [reflexivity | lra].
Qed.

Lemma untriggered_portfolio_pays_nothing_witness :
  exists pres,
    evaluate_portfolio_complex grid_miles [] two_sites 1000000
                               sparse_profiles "max_outcome" = inr pres /\
    uncapped_payout pres == 0 /\
    (0 <= 1000000 -> total_payout pres == 0).
Proof.
  eexists. split; [reflexivity|].
  exact (untriggered_portfolio_pays_nothing grid_miles [] two_sites 1000000
           sparse_profiles "max_outcome" _ eq_refl eq_refl).
Defined.

(** ** More on the radius and on the method *)

Lemma candidate_distance_mono
      (geodesic_miles : Q -> Q -> Q -> Q -> option Q)
      (lat_p lon_p r1 r2 : Q) (track : list point) (d : miles) :
  r1 <= r2 ->
  candidate_distance geodesic_miles (mkLocation lat_p lon_p r1) track d ->
  candidate_distance geodesic_miles (mkLocation lat_p lon_p r2) track d.
Proof.
  intros Hr [(p & Hin & ->)|(p1 & p2 & i & Hseg & Hi & Hd)].
  - left. exists p. split; [assumption | reflexivity].
  - right. exists p1, p2, i. split; [assumption|]. split; [|assumption].
    eapply interpolate_segment_mono; eassumption.
Qed.

(** X18. A larger radius never reports a larger minimum distance, and on a
    well-formed table it never turns a triggered location into an untriggered
    one. *)
Theorem larger_radius_keeps_trigger
        (geodesic_miles : Q -> Q -> Q -> Q -> option Q)
        (track : list point) (lat_p lon_p r1 r2 : Q) (table : payout_table_t)
        (method : string) (res1 res2 : result) :
  r1 <= r2 ->
  evaluate_payout_complex geodesic_miles track
    (mkPolicy (Some lat_p) (Some lon_p) (Some r1) table) method = inr res1 ->
  evaluate_payout_complex geodesic_miles track
    (mkPolicy (Some lat_p) (Some lon_p) (Some r2) table) method = inr res2 ->
  miles_le (min_distance_miles res2) (min_distance_miles res1) /\
  (well_formed table -> triggered res1 = true -> triggered res2 = true).
Proof.
  intros Hr [= <-] [= <-]. split.
  - destruct (string_dec method "interpolated") as [Hi|Hi];
      [|destruct (string_dec method "max_outcome") as [Hm|Hm]].
    + destruct (min_distance_is_minimum geodesic_miles (mkLocation lat_p lon_p r1) table
                  track method (or_introl Hi)) as [_ Hat].
      destruct (min_distance_is_minimum geodesic_miles (mkLocation lat_p lon_p r2) table
                  track method (or_introl Hi)) as [Hall _].
      cbv zeta in Hat, Hall. destruct Hat as [E|Hc].
      * rewrite E. apply miles_le_Inf.
      * apply Hall. eapply candidate_distance_mono; eassumption.
    + destruct (min_distance_is_minimum geodesic_miles (mkLocation lat_p lon_p r1) table
                  track method (or_intror Hm)) as [_ Hat].
      destruct (min_distance_is_minimum geodesic_miles (mkLocation lat_p lon_p r2) table
                  track method (or_intror Hm)) as [Hall _].
      cbv zeta in Hat, Hall. destruct Hat as [E|Hc].
      * rewrite E. apply miles_le_Inf.
      * apply Hall. eapply candidate_distance_mono; eassumption.
    + rewrite !(evaluate_core_unknown _ _ _ _ _ Hi Hm). exact I.
  - intros Hwf Htr.
    pose proof (evaluate_core_category_mono geodesic_miles lat_p lon_p r1 r2 Hr table
                                            track method) as Hcat.
    pose proof (resolve_payout_mono table _ _ Hwf Hcat) as Hratio.
    unfold evaluate_core in Htr, Hratio |- *. simpl in Htr, Hratio |- *.
    apply Qltb_lt in Htr. apply Qltb_lt. eapply Qlt_le_trans; eassumption.
Qed.

Lemma larger_radius_keeps_trigger_witness :
  let at_radius r :=
    evaluate_core grid_miles scenario_track
                  (mkLocation (257617 # 10000) (- (801918 # 10000)) r)
                  standard_table "interpolated" in
  miles_le (min_distance_miles (at_radius 60)) (min_distance_miles (at_radius 50)) /\
  triggered (at_radius 50) = true /\
  triggered (at_radius 60) = true.
Proof.
  destruct (larger_radius_keeps_trigger grid_miles scenario_track
              (257617 # 10000) (- (801918 # 10000)) 50 60 standard_table "interpolated"
              _ _ ltac:(discriminate) eq_refl eq_refl) as [Hmin Htrig].
  split; [exact Hmin|]. split; [vm_compute; reflexivity|].
  apply Htrig; [exact standard_table_well_formed | vm_compute; reflexivity].
Defined.

(** ** Bounds on what a location is paid *)

Lemma resolve_payout_in_unit (table : payout_table_t) (C : Z) :
  fractions_in_unit table -> 0 <= resolve_payout table C <= 1.
Proof.
  intros Hu. destruct (resolve_payout_source table C) as [->|(row & Hin & _ & ->)].
  - split; discriminate.
  - unfold fractions_in_unit in Hu. rewrite Forall_forall in Hu. now apply Hu.
Qed.

Lemma location_entry_bounded
      (geodesic_miles : Q -> Q -> Q -> Q -> option Q)
      (track : list point) (profiles : list (string * payout_table_t))
      (method : string) (loc : portfolio_location) (b : breakdown) :
  Forall fractions_in_unit (map snd profiles) ->
  0 <= sublimit loc ->
  location_entry geodesic_miles track profiles method loc = inr b ->
  0 <= b_Payout b <= sublimit loc.
Proof.
  intros Hu Hs. unfold location_entry.
  destruct (resolve_profile profiles loc) as [e|table] eqn:Hp; [discriminate|].
  destruct (evaluate_payout_complex geodesic_miles track _ method) as [e|res] eqn:Hres;
    [discriminate|].
  intros [= <-]. simpl.
  destruct (triggered res); [|split; [apply Qle_refl | exact Hs]].
  apply evaluate_payout_complex_inv in Hres.
  destruct Hres as (lat_p & lon_p & radius & _ & _ & _ & ->). simpl.
  rewrite Forall_forall in Hu.
  pose proof (Hu table (resolve_profile_in _ _ _ Hp)) as Ht.
  match goal with |- context [resolve_payout table ?C] =>
    pose proof (resolve_payout_in_unit table C Ht) as [H0 H1];
    set (ratio := resolve_payout table C) in * end.
  split.
  - apply Qmult_le_0_compat; assumption.
  - assert (H : 0 <= (1 - ratio) * sublimit loc)
      by (apply Qmult_le_0_compat; [lra | assumption]).
    lra.
Qed.

(** X19. With payout fractions between 0 and 1 and sublimits that are not
    negative, no location is paid more than its sublimit or less than 0: each
    breakdown entry's payout lies between 0 and the sublimit of its location,
    and the uncapped payout is at most the sum of the sublimits. *)
Theorem no_location_paid_beyond_sublimit
        (geodesic_miles : Q -> Q -> Q -> Q -> option Q)
        (track : list point) (locations : list portfolio_location)
        (aggregate_limit : Q) (profiles : list (string * payout_table_t))
        (method : string) (pres : portfolio_result) :
  Forall fractions_in_unit (map snd profiles) ->
  Forall (fun loc => 0 <= sublimit loc) locations ->
  evaluate_portfolio_complex geodesic_miles track locations aggregate_limit
                             profiles method = inr pres ->
  Forall2 (fun loc b => 0 <= b_Payout b <= sublimit loc)
          locations (location_breakdown pres) /\
  0 <= uncapped_payout pres <= Qsum (map sublimit locations).
Proof.
  intros Hu Hs. unfold evaluate_portfolio_complex.
  destruct (portfolio_loop geodesic_miles track profiles method locations
                           (mkPacc 0 [] false)) as [e|a] eqn:Hloop; [discriminate|].
  intros [= <-]. simpl.
  apply portfolio_loop_entries in Hloop. destruct Hloop as (bs & Hall & ->).
  assert (Hb : Forall2 (fun loc b => 0 <= b_Payout b <= sublimit loc) locations bs).
  { induction Hall as [|loc b locs bs' Hbe _ IH]; [constructor|].
    inversion Hs as [|? ? Hs1 Hs2]; subst.
    constructor; [|now apply IH].
    eapply location_entry_bounded; eassumption. }
  assert (Hsum : 0 <= Qsum (map b_Payout bs) <= Qsum (map sublimit locations)).
  { clear Hall Hs. induction Hb as [|loc b locs bs' Hbe _ IH]; simpl.
    - split; apply Qle_refl.
    - destruct IH, Hbe. split; lra. }
  destruct (fold_push_entry bs (mkPacc 0 [] false)) as (Hd & Ht & _).
  simpl in Hd, Ht. rewrite Hd, Ht. split; [exact Hb|]. destruct Hsum. split; lra.
Qed.

Lemma no_location_paid_beyond_sublimit_witness :
  exists pres,
    evaluate_portfolio_complex grid_miles scenario_track two_sites 1000000
                               sparse_profiles "max_outcome" = inr pres /\
    Forall2 (fun loc b => 0 <= b_Payout b <= sublimit loc)
            two_sites (location_breakdown pres) /\
    0 <= uncapped_payout pres <= Qsum (map sublimit two_sites).
Proof.
  eexists. split; [reflexivity|].
  apply (no_location_paid_beyond_sublimit grid_miles scenario_track two_sites 1000000
           sparse_profiles "max_outcome").
  - unfold sparse_profiles, sparse_table, fractions_in_unit. simpl.
    repeat constructor; simpl; discriminate.
  - unfold two_sites, site. repeat constructor; simpl; discriminate.
  - reflexivity.
Defined.

(** ** Colours of the map *)

Lemma determine_category_range (wind pressure : option Q) (table : payout_table_t) :
  Forall (fun row => (1 <= Category row <= 5)%Z) table ->
  (0 <= determine_category wind pressure table <= 5)%Z.
Proof.
  intros Hr. rewrite Forall_forall in Hr.
  destruct (determine_category_in_table wind pressure table) as [->|(row & Hin & <-)].
  - lia.
  - specialize (Hr row Hin). simpl in Hr. lia.
Qed.

(** X20. On a table whose categories are all between 1 and 5, every track
    segment is drawn in one of the six colours of the legend, never in the
    fallback grey, whatever the readings of its end points (missing ones
    included). *)
Theorem segment_color_in_legend
        (table : payout_table_t) (wind1 pres1 wind2 pres2 : option Q) :
  Forall (fun row => (1 <= Category row <= 5)%Z) table ->
  In (segment_color table wind1 pres1 wind2 pres2) legend_colors.
Proof.
  intros Hr. unfold segment_color.
  pose proof (determine_category_range wind1 pres1 table Hr) as H1.
  pose proof (determine_category_range wind2 pres2 table Hr) as H2.
  set (c := Z.max _ _).
  assert (Hc : (c = 0 \/ c = 1 \/ c = 2 \/ c = 3 \/ c = 4 \/ c = 5)%Z) by lia.
  clearbody c. unfold legend_colors.
  destruct Hc as [->|[->|[->|[->|[->| ->]]]]]; simpl; tauto.
Qed.

Lemma segment_color_in_legend_witness :
  In (segment_color standard_table (Some 100) None (Some 140) (Some 930)) legend_colors.
Proof.
  apply segment_color_in_legend.
  unfold standard_table. repeat constructor; simpl; discriminate.
Defined.

Example segment_color_outside_legend :
  segment_color [ mkTier 6 (Some 160) None 1 ] (Some 170) None None None
  = "#CCCCCC"%string.
Proof. reflexivity. Qed.

(** * The segment projection in binary64 arithmetic *)

Section FloatFacts.

Local Open Scope float_scope.

(** ** Comparisons of floats *)

Lemma SFcompare_antisym (x y : spec_float) (c : comparison) :
  SFcompare x y = Some c -> SFcompare y x = Some (CompOpp c).
Proof.
  destruct x as [sx|sx| |sx mx ex], y as [sy|sy| |sy my ey]; simpl;
    try discriminate; intros [= <-];
    try (destruct sx; reflexivity); try (destruct sy; reflexivity);
    try (destruct sx, sy; reflexivity).
  change (PosDef.Pos.compare_cont Eq my mx) with (Pos.compare my mx).
  change (PosDef.Pos.compare_cont Eq mx my) with (Pos.compare mx my).
  rewrite (Z.compare_antisym ex ey), (Pos.compare_antisym mx my).
  destruct sx, sy; try reflexivity;
    destruct (ex ?= ey)%Z; simpl; try reflexivity;
    destruct (mx ?= my)%positive; reflexivity.
Qed.

Lemma SFcompare_refl (x : spec_float) : x <> S754_nan -> SFcompare x x = Some Eq.
Proof.
  destruct x as [s|s| |s m e]; simpl; intros H; try reflexivity.
  - now destruct s.
  - contradiction.
  - rewrite Z.compare_refl.
    change (PosDef.Pos.compare_cont Eq m m) with (Pos.compare m m).
    rewrite Pos.compare_refl. now destruct s.
Qed.

Lemma float_ltb_leb (x y : float) : (x <? y) = true -> (x <=? y) = true.
Proof.
  rewrite (FloatAxioms.ltb_spec x y), (FloatAxioms.leb_spec x y). unfold SFltb, SFleb.
  destruct (SFcompare (Prim2SF x) (Prim2SF y)) as [[| |]|]; congruence.
Qed.

Lemma float_leb_not_ltb (x y : float) :
  (x <=? y) = true -> (x <? y) = false -> (x =? y) = true.
Proof.
  rewrite (FloatAxioms.ltb_spec x y), (FloatAxioms.leb_spec x y),
    (FloatAxioms.eqb_spec x y).
  unfold SFltb, SFleb, SFeqb.
  destruct (SFcompare (Prim2SF x) (Prim2SF y)) as [[| |]|]; congruence.
Qed.

Lemma float_ltb_asym (x y : float) : (x <? y) = true -> (y <? x) = false.
Proof.
  rewrite (FloatAxioms.ltb_spec x y), (FloatAxioms.ltb_spec y x). unfold SFltb.
  destruct (SFcompare (Prim2SF x) (Prim2SF y)) as [c|] eqn:E; [|discriminate].
  rewrite (SFcompare_antisym _ _ _ E). destruct c; simpl; congruence.
Qed.

Lemma float_eqb_sym (x y : float) : (x =? y) = (y =? x).
Proof.
  rewrite (FloatAxioms.eqb_spec x y), (FloatAxioms.eqb_spec y x). unfold SFeqb.
  destruct (SFcompare (Prim2SF x) (Prim2SF y)) as [c|] eqn:E.
  - rewrite (SFcompare_antisym _ _ _ E). now destruct c.
  - destruct (SFcompare (Prim2SF y) (Prim2SF x)) as [c|] eqn:E'; [|reflexivity].
    rewrite (SFcompare_antisym _ _ _ E') in E. discriminate.
Qed.

Lemma float_negative_below_one (x : float) : (x <? 0) = true -> (x <? 1) = true.
Proof.
  rewrite (FloatAxioms.ltb_spec x 0), (FloatAxioms.ltb_spec x 1).
  change (Prim2SF 0) with (S754_zero false).
  change (Prim2SF 1) with (S754_finite false 4503599627370496 (-52)).
  unfold SFltb. destruct (Prim2SF x) as [s|s| |s m e];
    cbv beta iota delta [SFcompare]; try discriminate;
    destruct s; cbv beta iota; intros H; try discriminate H; reflexivity.
Qed.

Lemma float_leb_eqb_refl (x y : float) : (x <=? y) = true -> (x =? x) = true.
Proof.
  rewrite (FloatAxioms.leb_spec x y), (FloatAxioms.eqb_spec x x).
  unfold SFleb, SFeqb. intros H.
  assert (Hx : Prim2SF x <> S754_nan)
    by (destruct (Prim2SF x); simpl in H; congruence).
  now rewrite SFcompare_refl.
Qed.

Lemma float_not_nan (x : float) : is_nan x = false -> Prim2SF x <> S754_nan.
Proof.
  unfold is_nan. rewrite negb_false_iff, (FloatAxioms.eqb_spec x x). unfold SFeqb.
  intros H E. rewrite E in H. discriminate.
Qed.

Lemma float_finite (x : float) :
  is_finite x = true ->
  (exists s, Prim2SF x = S754_zero s) \/ (exists s m e, Prim2SF x = S754_finite s m e).
Proof.
  unfold is_finite, is_nan, is_infinity.
  rewrite negb_true_iff, orb_false_iff, negb_false_iff, (FloatAxioms.eqb_spec x x),
    (FloatAxioms.eqb_spec (abs x) infinity), (FloatAxioms.abs_spec x).
  change (Prim2SF infinity) with (S754_infinity false).
  unfold SFeqb. intros [H1 H2].
  destruct (Prim2SF x) as [s|s| |s m e]; simpl in *; try discriminate; eauto.
Qed.

(** Adding [0 * dx] to a number leaves it as it is. *)
Lemma float_add_zero_mul (x dx : float) :
  is_nan x = false -> is_finite dx = true -> (x + 0 * dx =? x) = true.
Proof.
  intros Hx Hdx.
  rewrite (FloatAxioms.eqb_spec (x + 0 * dx) x), (FloatAxioms.add_spec x (0 * dx)),
    (FloatAxioms.mul_spec 0 dx).
  change (Prim2SF 0) with (S754_zero false).
  apply float_not_nan in Hx.
  assert (Hm : exists s, SF64mul (S754_zero false) (Prim2SF dx) = S754_zero s).
  { destruct (float_finite dx Hdx) as [[s ->]|(s & m & e & ->)]; simpl; eauto. }
  destruct Hm as [s ->].
  unfold SFeqb.
  destruct (Prim2SF x) as [sx|sx| |sx mx ex] eqn:E; simpl.
  - destruct sx, s; reflexivity.
  - now destruct sx.
  - contradiction.
  - rewrite Z.compare_refl.
    change (PosDef.Pos.compare_cont Eq mx mx) with (Pos.compare mx mx).
    rewrite Pos.compare_refl. now destruct sx.
Qed.

(** ** Clamping *)

(** [max(0, min(1, t))] is 0 below 0, 1 above 1, [t] in between, and never
    outside [0,1], a NaN included. *)
Lemma float_clamp (t0 : float) :
  let t := Float64.py_max 0 (Float64.py_min 1 t0) in
  ((0 <=? t) = true /\ (t <=? 1) = true) /\
  ((t0 <? 0) = true -> t = 0) /\
  ((1 <? t0) = true -> t = 1) /\
  ((0 <=? t0) = true -> (t0 <=? 1) = true -> (t =? t0) = true).
Proof.
  unfold Float64.py_max, Float64.py_min.
  assert (H01 : (0 <? 1) = true) by reflexivity.
  destruct (t0 <? 1) eqn:E1.
  - destruct (0 <? t0) eqn:E0; cbv zeta.
    + split; [split; now apply float_ltb_leb|].
      split; [intros H; apply float_ltb_asym in H; congruence|].
      split; [intros H; apply float_ltb_asym in H; congruence|].
      intros H _. eapply float_leb_eqb_refl. apply float_ltb_leb. exact E1.
    + split; [split; reflexivity|].
      split; [reflexivity|].
      split; [intros H; apply float_ltb_asym in H; congruence|].
      intros H _. now apply float_leb_not_ltb.
  - rewrite H01. cbv zeta.
    split; [split; reflexivity|].
    split; [intros H; apply float_negative_below_one in H; congruence|].
    split; [reflexivity|].
    intros _ H. rewrite float_eqb_sym. now apply float_leb_not_ltb.
Qed.

End FloatFacts.

Section FloatProjection.

Local Open Scope float_scope.

(** C5, as the code computes it. In binary64 arithmetic, for every pair of
    track points and every location, with [dx], [dy] the differences of the
    coordinates and [t0] the projection parameter
    [((lat_p - lat1) * dx + (lon_p - lon1) * dy) / (dx * dx + dy * dy)]:
    - coincident end points ([dx == 0] and [dy == 0]) give [None];
    - the parameter [t = max(0, min(1, t0))] is never outside [0,1]; it is 0
      when [t0 < 0], 1 when [t0 > 1], and equal to [t0] in between;
    - when [t0 < 0] the closest point [(lat1 + t * dx, lon1 + t * dy)] is
      [p1] itself (for coordinates that are numbers and finite differences);
      when [t0 > 1] it is [(lat1 + 1 * dx, lon1 + 1 * dy)], which rounding
      may leave next to [p2];
    - for distinct end points whose squared distance [dx * dx + dy * dy] is
      not 0, the result is the record of the closest point's coordinates, of
      the wind and pressure interpolated at [t] (a missing wind counting as 0
      and a missing pressure as 1013) and of the distance [d] from the
      location to the closest point when [d <= radius], and [None] when that
      test fails. *)
Theorem float_segment_projection
        (geodesic_miles : float -> float -> float -> float -> option float)
        (p1 p2 : Float64.point) (loc : Float64.location) :
  let lat1 := Float64.LAT p1 in
  let lon1 := Float64.LON p1 in
  let lat2 := Float64.LAT p2 in
  let lon2 := Float64.LON p2 in
  let lat_p := Float64.lat loc in
  let lon_p := Float64.lon loc in
  let dx := lat2 - lat1 in
  let dy := lon2 - lon1 in
  let t0 := ((lat_p - lat1) * dx + (lon_p - lon1) * dy) / (dx * dx + dy * dy) in
  let m := if t0 <? 1 then t0 else 1 in
  let t := if 0 <? m then m else 0 in
  let lat_c := lat1 + t * dx in
  let lon_c := lon1 + t * dy in
  let d := match geodesic_miles lat_p lon_p lat_c lon_c with
           | Some miles => miles
           | None => infinity
           end in
  let reading (f : option float) (default : float) :=
    match f with
    | Some x => if is_nan x then default else x
    | None => default
    end in
  let w1 := reading (Float64.USA_WIND p1) 0 in
  let w2 := reading (Float64.USA_WIND p2) 0 in
  let pr1 := reading (Float64.USA_PRES p1) 1013 in
  let pr2 := reading (Float64.USA_PRES p2) 1013 in
  ((dx =? 0) = true -> (dy =? 0) = true ->
   Float64.interpolate_segment geodesic_miles p1 p2 loc = Float64.Return None) /\
  ((0 <=? t) = true /\ (t <=? 1) = true) /\
  ((t0 <? 0) = true -> t = 0) /\
  ((1 <? t0) = true -> t = 1) /\
  ((0 <=? t0) = true -> (t0 <=? 1) = true -> (t =? t0) = true) /\
  ((t0 <? 0) = true ->
   is_nan lat1 = false -> is_nan lon1 = false ->
   is_finite dx = true -> is_finite dy = true ->
   (lat_c =? lat1) = true /\ (lon_c =? lon1) = true) /\
  ((dx =? 0) && (dy =? 0) = false -> (dx * dx + dy * dy =? 0) = false ->
   ((d <=? Float64.radius_miles loc) = true ->
    Float64.interpolate_segment geodesic_miles p1 p2 loc =
    Float64.Return
      (Some (Float64.mkProjection lat_c lon_c (w1 + t * (w2 - w1))
                                  (pr1 + t * (pr2 - pr1)) d))) /\
   ((d <=? Float64.radius_miles loc) = false ->
    Float64.interpolate_segment geodesic_miles p1 p2 loc = Float64.Return None)).
Proof.
  intros lat1 lon1 lat2 lon2 lat_p lon_p dx dy t0 m t lat_c lon_c d reading
         w1 w2 pr1 pr2.
  destruct (float_clamp t0) as (Hrange & Hneg & Hbig & Hmid).
  change (Float64.py_max 0 (Float64.py_min 1 t0)) with t in Hrange, Hneg, Hbig, Hmid.
  split; [|split; [exact Hrange|split; [exact Hneg|split; [exact Hbig|
          split; [exact Hmid|split]]]]].
  - intros Hdx Hdy. unfold Float64.interpolate_segment.
    fold lat1 lon1 lat2 lon2. fold dx dy. now rewrite Hdx, Hdy.
  - intros Ht Hlat Hlon Hdx Hdy. unfold lat_c, lon_c. rewrite (Hneg Ht).
    split; now apply float_add_zero_mul.
  - intros Hco Hden. unfold Float64.interpolate_segment.
    fold lat1 lon1 lat2 lon2 lat_p lon_p. fold dx dy. rewrite Hco, Hden.
    fold t0. change (Float64.py_max 0 (Float64.py_min 1 t0)) with t.
    fold lat_c lon_c. unfold Float64.calculate_distance_miles. fold d.
    split; intros Hd; rewrite Hd; reflexivity.
Qed.

(** The parameter of a location, as the theorem writes it. *)
Example east_site_parameter :
  let dy := Float64.LON Float64.east_point - Float64.LON Float64.west_point in
  ((Float64.lon Float64.east_site - Float64.LON Float64.west_point) * dy) / (dy * dy)
  = 0x1.fffffffffffffp+0.
Proof. reflexivity. Qed.

(** East of the track the parameter is above 1, the parameter is clamped
    to 1, and the point that is returned is not [p2]: its longitude is
    0.20000000000000004, beyond the 0.2 of [p2], and its wind
    97.80000000000001, above the 97.8 of [p2]. *)
Lemma projection_beyond_p2_is_not_p2 :
  let dy := Float64.LON Float64.east_point - Float64.LON Float64.west_point in
  let t0 :=
    ((Float64.lon Float64.east_site - Float64.LON Float64.west_point) * dy) / (dy * dy) in
  (1 <? t0) = true /\
  exists pr,
    Float64.interpolate_segment Float64.grid_miles Float64.west_point
                                Float64.east_point Float64.east_site
    = Float64.Return (Some pr) /\
    (Float64.p_LON pr =? Float64.LON Float64.east_point) = false /\
    (Float64.LON Float64.east_point <? Float64.p_LON pr) = true /\
    (0x1.8733333333333p+6 <? Float64.p_USA_WIND pr) = true.
Proof.
  split; [reflexivity|].
  eexists. split; [vm_compute; reflexivity|]. repeat split.
Qed.

(** The theorem at three locations: above the middle of the track, west of
    it, and out of reach. *)
Lemma float_segment_projection_witness :
  Float64.interpolate_segment Float64.grid_miles Float64.west_point
                              Float64.east_point Float64.middle_site
  = Float64.Return
      (Some (Float64.mkProjection 0 0x1p-4 0x1.0ba2222222222p+6
                                  0x1.f53aaaaaaaaabp+9 0x1.14p+4)) /\
  (exists pr,
     Float64.interpolate_segment Float64.grid_miles Float64.west_point
                                 Float64.east_point Float64.west_site
     = Float64.Return (Some pr) /\
     (Float64.p_LAT pr =? Float64.LAT Float64.west_point) = true /\
     (Float64.p_LON pr =? Float64.LON Float64.west_point) = true) /\
  Float64.interpolate_segment Float64.grid_miles Float64.west_point
                              Float64.east_point Float64.far_site
  = Float64.Return None /\
  Float64.interpolate_segment Float64.grid_miles Float64.west_point
                              Float64.west_point Float64.middle_site
  = Float64.Return None.
Proof.
  split; [|split; [|split]].
  - pose proof (float_segment_projection Float64.grid_miles Float64.west_point
                  Float64.east_point Float64.middle_site) as H.
    cbv zeta in H. destruct H as (_ & _ & _ & _ & _ & _ & H).
    destruct (H eq_refl eq_refl) as [Hin _]. exact (Hin eq_refl).
  - pose proof (float_segment_projection Float64.grid_miles Float64.west_point
                  Float64.east_point Float64.west_site) as H.
    cbv zeta in H. destruct H as (_ & _ & _ & _ & _ & Hp1 & H).
    destruct (H eq_refl eq_refl) as [Hin _].
    eexists. split; [exact (Hin eq_refl)|].
    exact (Hp1 eq_refl eq_refl eq_refl eq_refl eq_refl).
  - pose proof (float_segment_projection Float64.grid_miles Float64.west_point
                  Float64.east_point Float64.far_site) as H.
    cbv zeta in H. destruct H as (_ & _ & _ & _ & _ & _ & H).
    destruct (H eq_refl eq_refl) as [_ Hout]. exact (Hout eq_refl).
  - pose proof (float_segment_projection Float64.grid_miles Float64.west_point
                  Float64.west_point Float64.middle_site) as H.
    cbv zeta in H. destruct H as (H & _). exact (H eq_refl eq_refl).
Defined.

(** End points so close that the square of their distance underflows to 0:
    they are not coincident, and the division raises. *)
Example nearly_coincident_points_raise :
  Float64.interpolate_segment Float64.grid_miles
    (Float64.mkPoint 0 0 None None) (Float64.mkPoint 0x1p-600 0 None None)
    Float64.far_site
  = Float64.ZeroDivisionError.
Proof. vm_compute. reflexivity. Qed.

End FloatProjection.
